(** * Nesterov minimization with a custom integrator

    A shallow embedding of the notebook [02-nesterov-minimization.ipynb]:
    the [CustomIntegrator] program assembled by [NesterovMinimizer.__init__],
    the [minimize] methods of the two minimizers and
    [BaseMinimizer.benchmark] with its report template.

    Numbers are real numbers: the statements below are about the arithmetic
    the program writes down, not about its rounding.  A configuration is the
    flat list of the degrees of freedom of the particles (particle [p] owns
    entries [3p], [3p+1] and [3p+2]); the integrator evaluates a per-DOF
    expression once for each degree of freedom of a particle that has a
    mass, and leaves the particles of mass 0 as they are. *)

From Stdlib Require Import Reals List ZArith Lia Lra Psatz.
From Stdlib Require Import Ascii String DecimalString QArith.
Import ListNotations.

Local Open Scope R_scope.

(** ** The engine: systems, integrator variables, contexts *)

(** The energy model of a [System]: particle count, mass of each particle,
    potential energy (in kJ/mol) and force of a configuration. *)
Record System := {
  getNumParticles : nat;
  getParticleMass : nat -> R;
  getPotentialEnergy : list R -> R;
  getForces : list R -> list R
}.

Definition numDof (sys : System) : nat := (3 * getNumParticles sys)%nat.

(** A degree of freedom of a particle of mass 0: integrators do not move
    such a particle and compute no per-DOF variable for it. *)
Definition frozen (sys : System) (i : nat) : bool :=
  if Req_dec_T (getParticleMass sys (i / 3)) 0 then true else false.

(** The new value of a per-DOF variable: [new i] at every degree of freedom
    of a particle with a mass, the old value elsewhere. *)
Definition perDofUpdate (sys : System) (old : list R) (new : nat -> R) : list R :=
  map (fun i => if frozen sys i then nth i old 0 else new i) (seq 0 (numDof sys)).

(** The platform a context runs on, with its named properties. *)
Record Platform := {
  getName : string;
  getPropertyNames : list string;
  getPropertyValue : string -> string
}.

(** Global variables of the integrator: the two declared by the minimizer
    and the built-in step size [dt]. *)
Inductive GlobalVar := a_cur | a_old | dt.

(** Per-DOF variables: the two declared by the minimizer, and the built-in
    position [x] and force [f]. *)
Inductive PerDofVar := y_cur | y_old | x | f.

(** A variable as a per-DOF expression may read it. *)
Inductive Var :=
| G (g : GlobalVar)
| D (d : PerDofVar).

Coercion G : GlobalVar >-> Var.
Coercion D : PerDofVar >-> Var.

Definition GlobalVar_eqb (g h : GlobalVar) : bool :=
  match g, h with
  | a_cur, a_cur | a_old, a_old | dt, dt => true
  | _, _ => false
  end.

(** One computation of a custom integrator.  An expression is a function of
    the values of the variables it may read: the global variables for
    [ComputeGlobal], and those together with the per-DOF variables at the
    current degree of freedom for [ComputePerDof]. *)
Inductive Computation :=
| ComputeGlobal (variable : GlobalVar) (expression : (GlobalVar -> R) -> R)
| ComputePerDof (variable : PerDofVar) (expression : (Var -> R) -> R).

(** The integrator object: values of the global variables, values of the
    declared per-DOF variables, and the computations of one step in the
    order they were added. *)
Record CustomIntegrator := {
  globals : GlobalVar -> R;
  perDof_y_cur : list R;
  perDof_y_old : list R;
  computations : list Computation
}.

(** The integrator of the baseline minimizer's context; it is never
    stepped. *)
Record VerletIntegrator := {
  verletStepSize : R
}.

(** A context binds a system to a platform and an integrator and holds the
    positions of the particles. *)
Record Context (I : Type) := {
  getSystem : System;
  getPlatform : Platform;
  getIntegrator : I;
  positions : list R
}.

Arguments getSystem {I} _.
Arguments getPlatform {I} _.
Arguments getIntegrator {I} _.
Arguments positions {I} _.

(** [context.getState(getEnergy=True).getPotentialEnergy()], in kJ/mol:
    the energy of the positions the context holds now. *)
Definition potentialEnergy {I : Type} (c : Context I) : R :=
  getPotentialEnergy (getSystem c) (positions c).

(** Value of a per-DOF variable in a context; the force is the force of the
    current positions. *)
Definition perDofValue (c : Context CustomIntegrator) (d : PerDofVar) : list R :=
  match d with
  | y_cur => perDof_y_cur (getIntegrator c)
  | y_old => perDof_y_old (getIntegrator c)
  | x => positions c
  | f => getForces (getSystem c) (positions c)
  end.

(** What a per-DOF expression reads at degree of freedom [i]. *)
Definition dofEnv (c : Context CustomIntegrator) (i : nat) (v : Var) : R :=
  match v with
  | G g => globals (getIntegrator c) g
  | D d => nth i (perDofValue c d) 0
  end.

Definition setGlobal (g : GlobalVar) (r : R) (c : Context CustomIntegrator) : Context CustomIntegrator :=
  let it := getIntegrator c in
  {| getSystem := getSystem c;
     getPlatform := getPlatform c;
     getIntegrator :=
       {| globals := fun h => if GlobalVar_eqb g h then r else globals it h;
          perDof_y_cur := perDof_y_cur it;
          perDof_y_old := perDof_y_old it;
          computations := computations it |};
     positions := positions c |}.

(** Assigning a per-DOF variable.  The force is derived from the positions
    and is not a target of any computation of the program; an assignment to
    it changes nothing. *)
Definition setPerDof (d : PerDofVar) (l : list R) (c : Context CustomIntegrator) : Context CustomIntegrator :=
  let it := getIntegrator c in
  match d with
  | y_cur =>
      {| getSystem := getSystem c; getPlatform := getPlatform c;
         getIntegrator :=
           {| globals := globals it; perDof_y_cur := l;
              perDof_y_old := perDof_y_old it;
              computations := computations it |};
         positions := positions c |}
  | y_old =>
      {| getSystem := getSystem c; getPlatform := getPlatform c;
         getIntegrator :=
           {| globals := globals it; perDof_y_cur := perDof_y_cur it;
              perDof_y_old := l;
              computations := computations it |};
         positions := positions c |}
  | x =>
      {| getSystem := getSystem c; getPlatform := getPlatform c;
         getIntegrator := it;
         positions := l |}
  | f => c
  end.

(** Executing one computation: a global one evaluates its expression once, a
    per-DOF one evaluates it for every degree of freedom of the particles
    that have a mass, all of them reading the state before the assignment. *)
Definition execute (k : Computation) (c : Context CustomIntegrator) : Context CustomIntegrator :=
  match k with
  | ComputeGlobal g e => setGlobal g (e (globals (getIntegrator c))) c
  | ComputePerDof d e =>
      setPerDof d (perDofUpdate (getSystem c) (perDofValue c d) (fun i => e (dofEnv c i))) c
  end.

(** One step of the integrator runs its computations in order. *)
Definition oneStep (c : Context CustomIntegrator) : Context CustomIntegrator :=
  fold_left (fun c' k => execute k c') (computations (getIntegrator c)) c.

(** [integrator.step(steps)]: a counted loop of single steps. *)
Fixpoint step (steps : nat) (c : Context CustomIntegrator) : Context CustomIntegrator :=
  match steps with
  | O => c
  | S n => step n (oneStep c)
  end.

(** The contexts reached after each of the steps of [step steps c]. *)
Fixpoint stepTrace (steps : nat) (c : Context CustomIntegrator) : list (Context CustomIntegrator) :=
  match steps with
  | O => []
  | S n => oneStep c :: stepTrace n (oneStep c)
  end.

(** ** NesterovMinimizer *)

Record NesterovMinimizer := {
  numIterations : Z;
  nesterovContext : Context CustomIntegrator
}.

(** The computations added by [NesterovMinimizer.__init__], in order. *)
Definition nesterovComputations : list Computation :=
  [ ComputeGlobal a_cur (fun v => 0.5 * (1 + sqrt (1 + (4 * v a_old * v a_old))));
    ComputeGlobal a_old (fun v => v a_cur);
    ComputePerDof y_cur (fun v => v x + v dt * v f);
    ComputePerDof y_old (fun v => v y_cur);
    ComputePerDof x (fun v => v y_cur + (v a_old - 1) / v a_cur * (v y_cur - v y_old)) ].

(** [NesterovMinimizer.__init__]: the integrator is created with step size
    [stepSize], the two global and the two per-DOF variables are declared
    with initial value 0, the five computations are added, and the context
    is given the initial positions. *)
Definition NesterovMinimizer_init (system : System) (platform : Platform)
    (initialPositions : list R) (numIterations : Z) (stepSize : R)
    : NesterovMinimizer :=
  {| numIterations := numIterations;
     nesterovContext :=
       {| getSystem := system;
          getPlatform := platform;
          getIntegrator :=
            {| globals := fun g => match g with dt => stepSize | _ => 0 end;
               perDof_y_cur := repeat 0 (numDof system);
               perDof_y_old := repeat 0 (numDof system);
               computations := nesterovComputations |};
          positions := initialPositions |} |}.

(** [NesterovMinimizer.minimize]: step the integrator [numIterations]
    times; a count that is not positive runs no step. *)
Definition NesterovMinimizer_minimize (m : NesterovMinimizer) : NesterovMinimizer :=
  {| numIterations := numIterations m;
     nesterovContext := step (Z.to_nat (numIterations m)) (nesterovContext m) |}.

(** ** BFGSMinimizer *)

Record BFGSMinimizer := {
  tolerance : R;
  maxIterations : Z;
  bfgsContext : Context VerletIntegrator
}.

(** [BFGSMinimizer.__init__]; the defaults of the two optional arguments are
    a tolerance of 1 kJ/mol and [maxIterations = 0]. *)
Definition BFGSMinimizer_init (system : System) (platform : Platform)
    (initialPositions : list R) (tolerance : R) (maxIterations : Z)
    : BFGSMinimizer :=
  {| tolerance := tolerance;
     maxIterations := maxIterations;
     bfgsContext :=
       {| getSystem := system;
          getPlatform := platform;
          getIntegrator := {| verletStepSize := 0 |};
          positions := initialPositions |} |}.

Definition BFGSMinimizer_default_tolerance : R := 1.
Definition BFGSMinimizer_default_maxIterations : Z := 0%Z.

(** The engine's own L-BFGS routine is not part of the notebook: it is a
    parameter [lbfgs system tolerance maxIterations positions], the positions
    it leaves in the context. *)
Definition LocalEnergyMinimizer : Type := System -> R -> Z -> list R -> list R.

Definition LocalEnergyMinimizer_minimize (lbfgs : LocalEnergyMinimizer)
    {I : Type} (c : Context I) (tolerance : R) (maxIterations : Z) : Context I :=
  {| getSystem := getSystem c;
     getPlatform := getPlatform c;
     getIntegrator := getIntegrator c;
     positions := lbfgs (getSystem c) tolerance maxIterations (positions c) |}.

(** [BFGSMinimizer.minimize]. *)
Definition BFGSMinimizer_minimize (lbfgs : LocalEnergyMinimizer)
    (m : BFGSMinimizer) : BFGSMinimizer :=
  {| tolerance := tolerance m;
     maxIterations := maxIterations m;
     bfgsContext :=
       LocalEnergyMinimizer_minimize lbfgs (bfgsContext m) (tolerance m) (maxIterations m) |}.

(** ** BaseMinimizer: what [benchmark] needs of a minimizer *)

Class BaseMinimizer (M : Type) := {
  integratorType : Type;
  className : string;
  context : M -> Context integratorType;
  minimize : M -> M
}.

#[export] Instance NesterovMinimizer_BaseMinimizer : BaseMinimizer NesterovMinimizer := {
  integratorType := CustomIntegrator;
  className := "NesterovMinimizer";
  context := nesterovContext;
  minimize := NesterovMinimizer_minimize
}.

Definition BFGSMinimizer_BaseMinimizer (lbfgs : LocalEnergyMinimizer)
    : BaseMinimizer BFGSMinimizer := {|
  integratorType := VerletIntegrator;
  className := "BFGSMinimizer";
  context := bfgsContext;
  minimize := BFGSMinimizer_minimize lbfgs
|}.

(** ** [str.format] on the fragment the report template uses *)

Module PyFormat.

Local Open Scope string_scope.

Definition isDigit (ch : ascii) : bool :=
  let n := nat_of_ascii ch in (48 <=? n)%nat && (n <=? 57)%nat.

(** The leading decimal digits of [s] and what follows them. *)
Fixpoint spanDigits (s : string) : string * string :=
  match s with
  | String ch rest =>
      if isDigit ch
      then let '(ds, tl) := spanDigits rest in (String ch ds, tl)
      else (EmptyString, s)
  | EmptyString => (EmptyString, EmptyString)
  end.

Fixpoint natOfDigits (acc : nat) (ds : string) : nat :=
  match ds with
  | String ch rest => natOfDigits (10 * acc + (nat_of_ascii ch - 48)) rest
  | EmptyString => acc
  end.

Definition optNat (ds : string) : option nat :=
  match ds with
  | EmptyString => None
  | _ => Some (natOfDigits 0 ds)
  end.

Fixpoint spaces (n : nat) : string :=
  match n with
  | O => EmptyString
  | S k => String " " (spaces k)
  end.

Fixpoint zeros (n : nat) : string :=
  match n with
  | O => EmptyString
  | S k => String "0" (zeros k)
  end.

Fixpoint take (n : nat) (s : string) : string :=
  match n, s with
  | S k, String ch rest => String ch (take k rest)
  | _, _ => EmptyString
  end.

(** [sub in s] on strings. *)
Fixpoint contains (sub s : string) : bool :=
  prefix sub s
  || match s with
     | String _ rest => contains sub rest
     | EmptyString => false
     end.

(** The first [:] separates the field name from the format spec. *)
Fixpoint splitColon (s : string) : string * option string :=
  match s with
  | String ch rest =>
      if Ascii.eqb ch ":"
      then (EmptyString, Some rest)
      else let '(name, spec) := splitColon rest in (String ch name, spec)
  | EmptyString => (EmptyString, None)
  end.

Definition decimal (z : Z) : string := NilZero.string_of_int (Z.to_int z).

Inductive Align := AlignLeft | AlignRight | AlignCenter.

(** A format spec: [[align][width][.precision][type]]. *)
Record Spec := {
  specAlign : option Align;
  specWidth : option nat;
  specPrecision : option nat;
  specType : option ascii
}.

Definition alignOf (ch : ascii) : option Align :=
  if Ascii.eqb ch "<" then Some AlignLeft
  else if Ascii.eqb ch ">" then Some AlignRight
  else if Ascii.eqb ch "^" then Some AlignCenter
  else None.

Definition parseType (s : string) : option (option ascii) :=
  match s with
  | EmptyString => Some None
  | String ch EmptyString =>
      if Ascii.eqb ch "d" || Ascii.eqb ch "f" || Ascii.eqb ch "s"
      then Some (Some ch) else None
  | _ => None
  end.

Definition parsePrecision (s : string) : option (option nat * string) :=
  match s with
  | String "." rest =>
      let '(ds, tl) := spanDigits rest in
      match optNat ds with
      | Some p => Some (Some p, tl)
      | None => None
      end
  | _ => Some (None, s)
  end.

Definition parseSpec (s : string) : option Spec :=
  let '(al, s1) :=
    match s with
    | String ch rest =>
        match alignOf ch with
        | Some a => (Some a, rest)
        | None => (None, s)
        end
    | EmptyString => (None, s)
    end in
  let '(ws, s2) := spanDigits s1 in
  match parsePrecision s2 with
  | Some (prec, s3) =>
      match parseType s3 with
      | Some ty =>
          Some {| specAlign := al; specWidth := optNat ws;
                  specPrecision := prec; specType := ty |}
      | None => None
      end
  | None => None
  end.

(** Padding [text] to the width of the spec; [dflt] is the alignment of the
    value's type when the spec names none. *)
Definition pad (sp : Spec) (dflt : Align) (text : string) : string :=
  match specWidth sp with
  | None => text
  | Some w =>
      let n := (w - length text)%nat in
      match match specAlign sp with Some a => a | None => dflt end with
      | AlignLeft => text ++ spaces n
      | AlignRight => spaces n ++ text
      | AlignCenter => spaces (n / 2) ++ text ++ spaces (n - n / 2)
      end
  end.

Section Format.

(** The float type and Python's two ways of printing one: fixed-point with a
    given number of digits after the point (type [f]) and [str]. *)
Variable float : Type.
Variable format_f : nat -> float -> string.
Variable float_str : float -> string.

Inductive Arg :=
| ArgStr (s : string)
| ArgInt (z : Z)
| ArgFloat (r : float).

(** Keyword arguments, in the order they are written in the call. *)
Definition Kwargs := list (string * Arg).

Fixpoint lookup (name : string) (kw : Kwargs) : option Arg :=
  match kw with
  | (k, v) :: rest => if String.eqb k name then Some v else lookup name rest
  | [] => None
  end.

(** [format(value, spec)]; [None] is a [ValueError], or a combination
    outside the fragment. *)
Definition formatValue (v : Arg) (sp : Spec) : option string :=
  match v with
  | ArgStr s =>
      match specType sp with
      | None | Some "s"%char =>
          Some (pad sp AlignLeft
                  match specPrecision sp with Some p => take p s | None => s end)
      | _ => None
      end
  | ArgInt z =>
      match specType sp, specPrecision sp with
      | None, None | Some "d"%char, None => Some (pad sp AlignRight (decimal z))
      | _, _ => None
      end
  | ArgFloat r =>
      match specType sp, specPrecision sp with
      | Some "f"%char, Some p => Some (pad sp AlignRight (format_f p r))
      | Some "f"%char, None => Some (pad sp AlignRight (format_f 6 r))
      | None, None => Some (pad sp AlignRight (float_str r))
      | _, _ => None
      end
  end.

(** A replacement field nested in a format spec stands for [str] of its
    argument. *)
Definition strOf (v : Arg) : string :=
  match v with
  | ArgStr s => s
  | ArgInt z => decimal z
  | ArgFloat r => float_str r
  end.

(** Expanding the nested fields of a format spec; [name] is [Some] of the
    characters read so far while inside braces. *)
Fixpoint expandSpec (kw : Kwargs) (name : option string) (s : string) : option string :=
  match s with
  | EmptyString =>
      match name with None => Some EmptyString | Some _ => None end
  | String ch rest =>
      match name with
      | None =>
          if Ascii.eqb ch "{" then expandSpec kw (Some EmptyString) rest
          else if Ascii.eqb ch "}" then None
          else option_map (String ch) (expandSpec kw None rest)
      | Some nm =>
          if Ascii.eqb ch "}"
          then match lookup nm kw with
               | Some v => option_map (append (strOf v)) (expandSpec kw None rest)
               | None => None
               end
          else if Ascii.eqb ch "{" then None
          else expandSpec kw (Some (nm ++ String ch EmptyString)) rest
      end
  end.

(** The text of one replacement field [{name}] or [{name:spec}]. *)
Definition formatField (kw : Kwargs) (field : string) : option string :=
  let '(name, spec) := splitColon field in
  match lookup name kw with
  | None => None
  | Some v =>
      match expandSpec kw None match spec with Some s => s | None => EmptyString end with
      | None => None
      | Some s =>
          match parseSpec s with
          | Some sp => formatValue v sp
          | None => None
          end
      end
  end.

(** Where the scan of a template is: in literal text, just after a brace
    that may be the first of a doubled one, or inside a replacement field
    at some nesting depth with the characters read so far. *)
Inductive Scan :=
| Text
| Open
| Close
| Field (depth : nat) (acc : string).

(** One character of a replacement field: the next scan state, or the
    complete field. *)
Definition fieldStep (depth : nat) (acc : string) (ch : ascii) : Scan + string :=
  if Ascii.eqb ch "{" then inl (Field (S depth) (acc ++ String ch EmptyString))
  else if Ascii.eqb ch "}" then
    match depth with
    | O => inr acc
    | S d => inl (Field d (acc ++ String ch EmptyString))
    end
  else inl (Field depth (acc ++ String ch EmptyString)).

(** [template.format] with keyword arguments [kw]; [None] when Python
    raises. *)
Fixpoint scan (kw : Kwargs) (st : Scan) (template : string) : option string :=
  match template with
  | EmptyString =>
      match st with Text => Some EmptyString | _ => None end
  | String ch rest =>
      let inField (r : Scan + string) :=
        match r with
        | inl st' => scan kw st' rest
        | inr field =>
            match formatField kw field with
            | Some text => option_map (append text) (scan kw Text rest)
            | None => None
            end
        end in
      match st with
      | Text =>
          if Ascii.eqb ch "{" then scan kw Open rest
          else if Ascii.eqb ch "}" then scan kw Close rest
          else option_map (String ch) (scan kw Text rest)
      | Open =>
          if Ascii.eqb ch "{" then option_map (String ch) (scan kw Text rest)
          else inField (fieldStep 0 EmptyString ch)
      | Close =>
          if Ascii.eqb ch "}" then option_map (String ch) (scan kw Text rest)
          else None
      | Field depth acc => inField (fieldStep depth acc ch)
      end
  end.

Definition format (template : string) (kw : Kwargs) : option string :=
  scan kw Text template.

End Format.

Arguments ArgStr {float} _.
Arguments ArgInt {float} _.
Arguments ArgFloat {float} _.

End PyFormat.

(** ** BaseMinimizer.benchmark *)

Inductive OS := Posix | Nt.

(** [os.linesep]. *)
Definition os_linesep (os : OS) : string :=
  match os with
  | Posix => String "010" EmptyString
  | Nt => String "013" (String "010" EmptyString)
  end.

Definition reportLines : list string := [
  "{name} with {platform} platform and {numParticles:d} particles";
  "  ({details})";
  "  initial energy = {initial:>{width}.4f} kJ/mol";
  "  final energy   = {final:>{width}.4f} kJ/mol";
  "  elapsed time   = {time:.4f} s";
  EmptyString
]%string.

(** A dictionary as the list of its items in insertion order: setting a key
    that is present replaces its value in place. *)
Fixpoint dictSet (k v : string) (d : list (string * string)) : list (string * string) :=
  match d with
  | (k', v') :: rest =>
      if String.eqb k' k then (k', v) :: rest else (k', v') :: dictSet k v rest
  | [] => [(k, v)]
  end.

(** [{k: platform.getPropertyValue(context, k) for k in platform.getPropertyNames()}] *)
Definition properties (platform : Platform) : list (string * string) :=
  fold_left (fun d k => dictSet k (getPropertyValue platform k) d)
            (getPropertyNames platform) [].

(** [[v for k, v in properties.items() if 'DeviceName' in k]] *)
Definition deviceNames (platform : Platform) : list string :=
  map snd (filter (fun kv => PyFormat.contains "DeviceName" (fst kv)) (properties platform)).

(** ['device = ' + deviceNames[0] if len(deviceNames) > 0 else ''] *)
Definition details (names : list string) : string :=
  match names with
  | name :: _ => ("device = " ++ name)%string
  | [] => EmptyString
  end.

(** The values a benchmark run hands to the template. *)
Record Measurement (float : Type) := {
  m_name : string;
  m_platform : string;
  m_numParticles : nat;
  m_deviceNames : list string;
  m_initial : float;
  m_final : float;
  m_time : float
}.

Arguments m_name {float} _.
Arguments m_platform {float} _.
Arguments m_numParticles {float} _.
Arguments m_deviceNames {float} _.
Arguments m_initial {float} _.
Arguments m_final {float} _.
Arguments m_time {float} _.

Section Report.

Variable float : Type.
Variable format_f : nat -> float -> string.
Variable float_str : float -> string.

(** [os.linesep.join(reportLines).format(name=..., width=12, ...)] *)
Definition report (os : OS) (v : Measurement float) : option string :=
  PyFormat.format float format_f float_str
    (String.concat (os_linesep os) reportLines)
    [ ("name", PyFormat.ArgStr (m_name v));
      ("width", PyFormat.ArgInt 12);
      ("details", PyFormat.ArgStr (details (m_deviceNames v)));
      ("numParticles", PyFormat.ArgInt (Z.of_nat (m_numParticles v)));
      ("platform", PyFormat.ArgStr (m_platform v));
      ("initial", PyFormat.ArgFloat (m_initial v));
      ("final", PyFormat.ArgFloat (m_final v));
      ("time", PyFormat.ArgFloat (m_time v)) ]%string.

End Report.

(** What [benchmark] measures: the energy of the context before the call of
    [minimize], the two readings of the clock around it, and the energy,
    platform and system of the context after it. *)
Definition measure {M : Type} `{BaseMinimizer M} (m : M) (startTime endTime : R)
    : M * Measurement R :=
  let initialEnergy := potentialEnergy (context m) in
  let m' := minimize m in
  let finalEnergy := potentialEnergy (context m') in
  let platform := getPlatform (context m') in
  (m', {| m_name := className;
          m_platform := getName platform;
          m_numParticles := getNumParticles (getSystem (context m'));
          m_deviceNames := deviceNames platform;
          m_initial := initialEnergy;
          m_final := finalEnergy;
          m_time := endTime - startTime |}).

(** [BaseMinimizer.benchmark]: the minimizer after the run and the report;
    [format_f] and [float_str] print a float, [startTime] and [endTime] are
    what [time.time()] returned. *)
Definition benchmark {M : Type} `{BaseMinimizer M} (os : OS)
    (format_f : nat -> R -> string) (float_str : R -> string)
    (m : M) (startTime endTime : R) : M * option string :=
  let '(m', v) := measure m startTime endTime in
  (m', report R format_f float_str os v).

(** Fixed-point printing of a rational, rounding half to even: the [f]
    format of a float whose value is that rational. *)
Definition Qformat_f (p : nat) (q : Q) : string :=
  let scale := (10 ^ Z.of_nat p)%Z in
  let num := (Z.abs (Qnum q) * scale)%Z in
  let den := Zpos (Qden q) in
  let quo := (num / den)%Z in
  let rem := (num mod den)%Z in
  let n := if ((den <? 2 * rem) || ((2 * rem =? den) && Z.odd quo))%Z
           then (quo + 1)%Z else quo in
  let frac := PyFormat.decimal (n mod scale) in
  ((if (Qnum q <? 0)%Z then "-" else EmptyString)
   ++ PyFormat.decimal (n / scale)
   ++ match p with
      | O => EmptyString
      | _ => "." ++ PyFormat.zeros (p - String.length frac) ++ frac
      end)%string.

(** ** The update of the specification, and plain gradient descent *)

(** The momentum coefficient that follows [a]. *)
Definition momentum (a : R) : R := 0.5 * (1 + sqrt (1 + (4 * a * a))).

(** The position the specification asks for at one degree of freedom: the
    look-ahead point [y = xi + h * fi] extrapolated with the coefficient and
    the look-ahead point of the iteration before. *)
Definition specPosition (xi fi h a_old_prev y_old_prev : R) : R :=
  let a := momentum a_old_prev in
  let y := xi + h * fi in
  y + ((a_old_prev - 1) / a) * (y - y_old_prev).

(** The specified next positions of a context, from the values it holds
    before the step. *)
Definition specPositions (c : Context CustomIntegrator) : list R :=
  map (fun i => specPosition (dofEnv c i x) (dofEnv c i f) (dofEnv c i dt)
                             (dofEnv c i a_old) (dofEnv c i y_old))
      (seq 0 (numDof (getSystem c))).

(** One step of gradient descent with a fixed step size [h] along the
    force, for every degree of freedom of the system. *)
Definition gradientStep (sys : System) (h : R) (p : list R) : list R :=
  map (fun i => nth i p 0 + h * nth i (getForces sys p) 0) (seq 0 (numDof sys)).

(** The same step where particles of mass 0 stay where they are. *)
Definition descentStep (sys : System) (h : R) (p : list R) : list R :=
  perDofUpdate sys p (fun i => nth i p 0 + h * nth i (getForces sys p) 0).

(** Every particle of the system has a mass. *)
Definition allMassive (sys : System) : Prop :=
  forall p, (p < getNumParticles sys)%nat -> getParticleMass sys p <> 0.

(** The momentum state as the specification resets it at the start of a
    run: [a_old = 0] and [y_old] equal to the configuration. *)
Definition momentumReset (c : Context CustomIntegrator) : Prop :=
  globals (getIntegrator c) a_old = 0 /\ perDof_y_old (getIntegrator c) = positions c.

(** The contexts a call of [minimize] goes through, one per iteration. *)
Definition minimizeTrace (m : NesterovMinimizer) : list (Context CustomIntegrator) :=
  stepTrace (Z.to_nat (numIterations m)) (nesterovContext m).

(** ** Systems and platforms used as concrete inputs *)

(** One particle in a uniform field: every force component is 1. *)
Definition uniformField : System :=
  {| getNumParticles := 1;
     getParticleMass := fun _ => 1;
     getPotentialEnergy := fun p => - fold_right Rplus 0 p;
     getForces := fun _ => [1; 1; 1] |}.

(** One particle in a harmonic well centred at the origin. *)
Definition harmonicWell : System :=
  {| getNumParticles := 1;
     getParticleMass := fun _ => 1;
     getPotentialEnergy := fun p => 0.5 * fold_right Rplus 0 (map (fun r => r * r) p);
     getForces := map Ropp |}.

(** A particle of mass 0 in the uniform field. *)
Definition frozenParticle : System :=
  {| getNumParticles := 1;
     getParticleMass := fun _ => 0;
     getPotentialEnergy := fun p => - fold_right Rplus 0 p;
     getForces := fun _ => [1; 1; 1] |}.

Definition referencePlatform : Platform :=
  {| getName := "Reference";
     getPropertyNames := [];
     getPropertyValue := fun _ => EmptyString |}.

Definition cudaPlatform : Platform :=
  {| getName := "CUDA";
     getPropertyNames := ["CudaDeviceIndex"; "CudaDeviceName"; "CudaPrecision"]%string;
     getPropertyValue := fun k =>
       if String.eqb k "CudaDeviceName" then "GeForce GTX 660"
       else if String.eqb k "CudaDeviceIndex" then "0"
       else "single" |}%string.

(** The stopping rule of the engine's routine: the root mean square of the
    force components is at most the tolerance. *)
Definition sumSquares (l : list R) : R := fold_right Rplus 0 (map (fun r => r * r) l).

Definition withinTolerance (sys : System) (tolerance : R) (p : list R) : Prop :=
  sumSquares (getForces sys p) <= INR (numDof sys) * (tolerance * tolerance).

(** A descent with that stopping rule: while the forces are not within the
    tolerance it moves every coordinate by the force on it, for at most
    [budget] iterations. *)
Fixpoint descend (budget : nat) (sys : System) (tolerance : R) (p : list R) : list R :=
  match budget with
  | O => p
  | S k =>
      if Rle_dec (sumSquares (getForces sys p)) (INR (numDof sys) * (tolerance * tolerance))
      then p
      else descend k sys tolerance (gradientStep sys 1 p)
  end.

(** A routine to stand for the engine's: [descend] with [maxIterations] as
    its budget, and with a budget of 1000 iterations when [maxIterations]
    is 0, which sets no cap. *)
Definition unitDescent : LocalEnergyMinimizer :=
  fun sys tolerance maxIterations p =>
    descend (if (maxIterations =? 0)%Z then 1000 else Z.to_nat maxIterations)
            sys tolerance p.

(** [text.rjust(width)] *)
Definition rjust (width : nat) (text : string) : string :=
  (PyFormat.spaces (width - String.length text) ++ text)%string.

(** The first run recorded in the notebook: structure 2EQQ, Nesterov
    minimizer, with the energies and the time it printed. *)
Definition run_2EQQ_Nesterov : Measurement Q :=
  {| m_name := "NesterovMinimizer"; m_platform := "CUDA"; m_numParticles := 423;
     m_deviceNames := ["GeForce GTX 660"%string];
     m_initial := (-3532573 # 10000)%Q; m_final := (-28916297 # 10000)%Q;
     m_time := (181 # 10000)%Q |}.

(** The keyword arguments [benchmark] passes to [format]. *)
Definition reportKwargs {float : Type} (v : Measurement float) : PyFormat.Kwargs float :=
  [ ("name", PyFormat.ArgStr (m_name v));
    ("width", PyFormat.ArgInt 12);
    ("details", PyFormat.ArgStr (details (m_deviceNames v)));
    ("numParticles", PyFormat.ArgInt (Z.of_nat (m_numParticles v)));
    ("platform", PyFormat.ArgStr (m_platform v));
    ("initial", PyFormat.ArgFloat (m_initial v));
    ("final", PyFormat.ArgFloat (m_final v));
    ("time", PyFormat.ArgFloat (m_time v)) ]%string.

(** The property names of a platform in the order they are first seen. *)
Definition firstSeen (names : list string) : list string :=
  fold_left (fun seen k => if existsb (String.eqb k) seen then seen else seen ++ [k])
            names [].

(** ** downloadFromRCSB: the address of a structure *)

(** Every character of the string is an ASCII character. *)
Definition isAscii (s : string) : bool :=
  forallb (fun ch => (nat_of_ascii ch <? 128)%nat) (list_ascii_of_string s).

Definition lowerAscii (ch : ascii) : ascii :=
  let n := nat_of_ascii ch in
  if ((65 <=? n) && (n <=? 90))%nat then ascii_of_nat (n + 32) else ch.

(** [str.lower] of a string of ASCII characters: the letters [A] to [Z]
    become [a] to [z].  What [str.lower] does to other characters is not
    modelled. *)
Fixpoint lower (s : string) : string :=
  match s with
  | String ch rest => String (lowerAscii ch) (lower rest)
  | EmptyString => EmptyString
  end.

(** The [url] that [downloadFromRCSB] opens for a PDB id. *)
Definition rcsbUrl (PDB_ID : string) : string :=
  ("ftp://ftp.wwpdb.org/pub/pdb/data/structures/all/pdb/pdb"
   ++ lower PDB_ID ++ ".ent.gz")%string.

(** ** The comparison the notebook runs for each structure *)

(** [NesterovMinimizer(system, positions, stepSize=1e-6, numIterations=500)] *)
Definition nesterovRun (system : System) (platform : Platform) (initial : list R)
    : NesterovMinimizer :=
  NesterovMinimizer_init system platform initial 500 1e-6.

(** [BFGSMinimizer(system, positions, maxIterations=500)] *)
Definition bfgsRun (system : System) (platform : Platform) (initial : list R)
    : BFGSMinimizer :=
  BFGSMinimizer_init system platform initial BFGSMinimizer_default_tolerance 500.

(** What the two [benchmark] calls of one pass of the loop measure;
    [platformN] and [platformB] are the platforms the engine picks for the
    two contexts, [t0 .. t3] the four readings of the clock. *)
Definition compareMinimizers (lbfgs : LocalEnergyMinimizer) (system : System)
    (platformN platformB : Platform) (initial : list R) (t0 t1 t2 t3 : R)
    : Measurement R * Measurement R :=
  (snd (measure (nesterovRun system platformN initial) t0 t1),
   snd (@measure BFGSMinimizer (BFGSMinimizer_BaseMinimizer lbfgs)
          (bfgsRun system platformB initial) t2 t3)).

(** * Properties *)

(** ** The momentum coefficient *)

Lemma momentum_radicand_pos (a : R) : 0 < 1 + (4 * a * a).
Proof. nra. Qed.

Lemma momentum_sqrt_sq (a : R) :
  sqrt (1 + (4 * a * a)) * sqrt (1 + (4 * a * a)) = 1 + (4 * a * a).
Proof. apply sqrt_sqrt. pose proof (momentum_radicand_pos a). lra. Qed.

Lemma momentum_0 : momentum 0 = 1.
Proof.
  unfold momentum.
  replace (1 + (4 * 0 * 0)) with 1 by ring.
  rewrite sqrt_1. lra.
Qed.

Lemma momentum_recurrence (a : R) :
  momentum a * momentum a - momentum a = a * a.
Proof.
  unfold momentum.
  pose proof (momentum_sqrt_sq a) as Hs.
  nra.
Qed.

Lemma momentum_ge_1 (a : R) : 1 <= momentum a.
Proof.
  unfold momentum.
  pose proof (momentum_sqrt_sq a) as Hs.
  pose proof (sqrt_pos (1 + (4 * a * a))) as Hp.
  nra.
Qed.

Lemma momentum_gain (a : R) : 0 <= a -> a + 0.5 < momentum a.
Proof.
  intros Ha. unfold momentum.
  pose proof (momentum_sqrt_sq a) as Hs.
  pose proof (sqrt_pos (1 + (4 * a * a))) as Hp.
  nra.
Qed.

Lemma coefficient_range (a : R) : 1 <= a -> 0 <= (a - 1) / a < 1.
Proof.
  intros Ha.
  assert (Hinv : 0 < / a) by (apply Rinv_0_lt_compat; lra).
  assert (Hone : a * / a = 1) by (apply Rinv_r; lra).
  unfold Rdiv. split; nra.
Qed.

(** ** One step of the Nesterov integrator *)

Lemma nth_map_seq {A : Type} (g : nat -> A) (d : A) (n i : nat) :
  (i < n)%nat -> nth i (map g (seq 0 n)) d = g i.
Proof.
  intros Hi.
  rewrite (nth_indep _ d (g 0%nat)) by (rewrite length_map, length_seq; exact Hi).
  rewrite map_nth, seq_nth by exact Hi.
  reflexivity.
Qed.

Lemma map_seq_ext {A : Type} (g h : nat -> A) (n : nat) :
  (forall i, (i < n)%nat -> g i = h i) -> map g (seq 0 n) = map h (seq 0 n).
Proof.
  intros Hgh. apply map_ext_in. intros i Hi.
  apply in_seq in Hi. apply Hgh. lia.
Qed.

Lemma map_nth_seq {A : Type} (l : list A) (d : A) :
  map (fun i => nth i l d) (seq 0 (List.length l)) = l.
Proof.
  apply nth_ext with (d := d) (d' := d).
  - rewrite length_map, length_seq. reflexivity.
  - intros i Hi. rewrite length_map, length_seq in Hi.
    apply (nth_map_seq (fun j => nth j l d)). exact Hi.
Qed.

Lemma gradientStep_length (sys : System) (h : R) (p : list R) :
  List.length (gradientStep sys h p) = numDof sys.
Proof. unfold gradientStep. rewrite length_map, length_seq. reflexivity. Qed.

Lemma gradientStep_reread (sys : System) (h : R) (p : list R) :
  map (fun i => nth i (gradientStep sys h p) 0) (seq 0 (numDof sys))
  = gradientStep sys h p.
Proof.
  rewrite <- (gradientStep_length sys h p) at 1.
  apply map_nth_seq.
Qed.

(** *** Particles with and without mass *)

Lemma frozen_false (sys : System) (i : nat) :
  getParticleMass sys (i / 3) <> 0 -> frozen sys i = false.
Proof.
  intros Hm. unfold frozen.
  destruct (Req_dec_T (getParticleMass sys (i / 3)) 0); [contradiction | reflexivity].
Qed.

Lemma frozen_true (sys : System) (i : nat) :
  getParticleMass sys (i / 3) = 0 -> frozen sys i = true.
Proof.
  intros Hm. unfold frozen.
  destruct (Req_dec_T (getParticleMass sys (i / 3)) 0); [reflexivity | contradiction].
Qed.

Lemma allMassive_frozen (sys : System) (i : nat) :
  allMassive sys -> (i < numDof sys)%nat -> frozen sys i = false.
Proof.
  intros Hall Hi. apply frozen_false, Hall.
  unfold numDof in Hi. apply Nat.Div0.div_lt_upper_bound. exact Hi.
Qed.

Lemma perDofUpdate_nth (sys : System) (old : list R) (new : nat -> R) (i : nat) :
  (i < numDof sys)%nat ->
  nth i (perDofUpdate sys old new) 0 = if frozen sys i then nth i old 0 else new i.
Proof.
  intros Hi. unfold perDofUpdate.
  apply (nth_map_seq (fun j => if frozen sys j then nth j old 0 else new j)). exact Hi.
Qed.

Lemma perDofUpdate_ext (sys : System) (old old' : list R) (new new' : nat -> R) :
  (forall i, (i < numDof sys)%nat -> frozen sys i = true -> nth i old 0 = nth i old' 0) ->
  (forall i, (i < numDof sys)%nat -> frozen sys i = false -> new i = new' i) ->
  perDofUpdate sys old new = perDofUpdate sys old' new'.
Proof.
  intros Hold Hnew. unfold perDofUpdate. apply map_seq_ext. intros i Hi.
  destruct (frozen sys i) eqn:Hf; [apply Hold | apply Hnew]; assumption.
Qed.

Lemma perDofUpdate_massive (sys : System) (old : list R) (new : nat -> R) :
  allMassive sys -> perDofUpdate sys old new = map new (seq 0 (numDof sys)).
Proof.
  intros Hall. unfold perDofUpdate. apply map_seq_ext. intros i Hi.
  rewrite (allMassive_frozen sys i Hall Hi). reflexivity.
Qed.

Lemma descentStep_massive (sys : System) (h : R) (p : list R) :
  allMassive sys -> descentStep sys h p = gradientStep sys h p.
Proof. intros Hall. apply perDofUpdate_massive. exact Hall. Qed.

Lemma descentStep_length (sys : System) (h : R) (p : list R) :
  List.length (descentStep sys h p) = numDof sys.
Proof.
  unfold descentStep, perDofUpdate. rewrite length_map, length_seq. reflexivity.
Qed.

(** Unfolds one step of the integrator into its five assignments. *)
Ltac run_step Hprog :=
  unfold oneStep; rewrite Hprog;
  cbn [fold_left nesterovComputations execute setGlobal setPerDof
       getSystem getPlatform getIntegrator positions
       globals perDof_y_cur perDof_y_old computations
       dofEnv perDofValue GlobalVar_eqb].

Section OneStep.

Variable c : Context CustomIntegrator.
Hypothesis Hprog : computations (getIntegrator c) = nesterovComputations.

(** The look-ahead point [x + dt * f] of the step. *)
Let ahead (i : nat) : R :=
  nth i (positions c) 0
  + globals (getIntegrator c) dt * nth i (getForces (getSystem c) (positions c)) 0.

Lemma oneStep_system : getSystem (oneStep c) = getSystem c.
Proof. run_step Hprog. reflexivity. Qed.

Lemma oneStep_platform : getPlatform (oneStep c) = getPlatform c.
Proof. run_step Hprog. reflexivity. Qed.

Lemma oneStep_computations :
  computations (getIntegrator (oneStep c)) = nesterovComputations.
Proof. run_step Hprog. exact Hprog. Qed.

Lemma oneStep_a_cur :
  globals (getIntegrator (oneStep c)) a_cur = momentum (globals (getIntegrator c) a_old).
Proof. run_step Hprog. reflexivity. Qed.

Lemma oneStep_a_old :
  globals (getIntegrator (oneStep c)) a_old = momentum (globals (getIntegrator c) a_old).
Proof. run_step Hprog. reflexivity. Qed.

Lemma oneStep_dt :
  globals (getIntegrator (oneStep c)) dt = globals (getIntegrator c) dt.
Proof. run_step Hprog. reflexivity. Qed.

Lemma oneStep_y_cur :
  perDof_y_cur (getIntegrator (oneStep c))
  = perDofUpdate (getSystem c) (perDof_y_cur (getIntegrator c)) ahead.
Proof. run_step Hprog. reflexivity. Qed.

Lemma oneStep_y_old :
  perDof_y_old (getIntegrator (oneStep c))
  = perDofUpdate (getSystem c) (perDof_y_old (getIntegrator c)) ahead.
Proof.
  run_step Hprog.
  apply perDofUpdate_ext; [reflexivity|].
  intros i Hi Hf.
  rewrite perDofUpdate_nth by exact Hi.
  rewrite Hf. reflexivity.
Qed.

Lemma oneStep_positions :
  positions (oneStep c) = descentStep (getSystem c) (globals (getIntegrator c) dt) (positions c).
Proof.
  run_step Hprog. unfold descentStep.
  apply perDofUpdate_ext; [reflexivity|].
  intros i Hi Hf.
  rewrite !perDofUpdate_nth by exact Hi.
  rewrite Hf.
  unfold Rdiv. ring.
Qed.

(** At a degree of freedom of a particle with a mass, the two look-ahead
    variables and the position agree after the step. *)
Lemma oneStep_massive_dof (i : nat) :
  (i < numDof (getSystem c))%nat -> frozen (getSystem c) i = false ->
  nth i (perDof_y_cur (getIntegrator (oneStep c))) 0 = ahead i
  /\ nth i (perDof_y_old (getIntegrator (oneStep c))) 0 = ahead i
  /\ nth i (positions (oneStep c)) 0 = ahead i.
Proof.
  intros Hi Hf.
  rewrite oneStep_y_cur, oneStep_y_old, oneStep_positions.
  unfold descentStep. rewrite !perDofUpdate_nth by exact Hi.
  rewrite Hf. repeat split.
Qed.

(** A particle of mass 0 keeps its position. *)
Lemma oneStep_frozen_dof (i : nat) :
  (i < numDof (getSystem c))%nat -> frozen (getSystem c) i = true ->
  nth i (positions (oneStep c)) 0 = nth i (positions c) 0.
Proof.
  intros Hi Hf. rewrite oneStep_positions.
  unfold descentStep. rewrite perDofUpdate_nth by exact Hi.
  rewrite Hf. reflexivity.
Qed.

(** When every particle has a mass, all three are the gradient step. *)
Lemma oneStep_massive :
  allMassive (getSystem c) ->
  perDof_y_cur (getIntegrator (oneStep c)) = gradientStep (getSystem c) (globals (getIntegrator c) dt) (positions c)
  /\ perDof_y_old (getIntegrator (oneStep c)) = gradientStep (getSystem c) (globals (getIntegrator c) dt) (positions c)
  /\ positions (oneStep c) = gradientStep (getSystem c) (globals (getIntegrator c) dt) (positions c).
Proof.
  intros Hall.
  rewrite oneStep_y_cur, oneStep_y_old, oneStep_positions, descentStep_massive by exact Hall.
  rewrite !perDofUpdate_massive by exact Hall.
  repeat split.
Qed.

End OneStep.

(** ** Runs of several steps *)

Lemma step_last (n : nat) (c : Context CustomIntegrator) :
  step (S n) c = oneStep (step n c).
Proof.
  revert c. induction n as [|n IH]; intros c.
  - reflexivity.
  - change (step (S (S n)) c) with (step (S n) (oneStep c)).
    rewrite IH. reflexivity.
Qed.

Lemma step_iter (n : nat) (c : Context CustomIntegrator) :
  step n c = Nat.iter n oneStep c.
Proof.
  induction n as [|n IH].
  - reflexivity.
  - rewrite step_last, IH. reflexivity.
Qed.

Lemma step_add (n k : nat) (c : Context CustomIntegrator) :
  step (n + k) c = step k (step n c).
Proof.
  revert c. induction n as [|n IH]; intros c.
  - reflexivity.
  - simpl. apply IH.
Qed.

Lemma last_cons {A : Type} (l : list A) (a d : A) :
  last (a :: l) d = last l a.
Proof.
  revert a d. induction l as [|b l IH]; intros a d.
  - reflexivity.
  - change (last (a :: b :: l) d) with (last (b :: l) d).
    rewrite !(IH b). reflexivity.
Qed.

Lemma stepTrace_length (n : nat) (c : Context CustomIntegrator) :
  List.length (stepTrace n c) = n.
Proof.
  revert c. induction n as [|n IH]; intros c; simpl.
  - reflexivity.
  - rewrite IH. reflexivity.
Qed.

Lemma stepTrace_iter (n : nat) (c : Context CustomIntegrator) :
  stepTrace n c = map (fun k => Nat.iter (S k) oneStep c) (seq 0 n).
Proof.
  revert c. induction n as [|n IH]; intros c.
  - reflexivity.
  - cbn [stepTrace seq map]. f_equal.
    rewrite IH, <- seq_shift, map_map.
    apply map_ext. intros k.
    rewrite <- !step_iter. reflexivity.
Qed.

Section Runs.

Variable c : Context CustomIntegrator.
Hypothesis Hprog : computations (getIntegrator c) = nesterovComputations.

Lemma step_computations (n : nat) :
  computations (getIntegrator (step n c)) = nesterovComputations.
Proof.
  induction n as [|n IH].
  - exact Hprog.
  - rewrite step_last. apply oneStep_computations. exact IH.
Qed.

Lemma step_system (n : nat) : getSystem (step n c) = getSystem c.
Proof.
  induction n as [|n IH].
  - reflexivity.
  - rewrite step_last, oneStep_system by apply step_computations. exact IH.
Qed.

Lemma step_dt (n : nat) :
  globals (getIntegrator (step n c)) dt = globals (getIntegrator c) dt.
Proof.
  induction n as [|n IH].
  - reflexivity.
  - rewrite step_last, oneStep_dt by apply step_computations. exact IH.
Qed.

Lemma step_a_old (n : nat) :
  globals (getIntegrator (step n c)) a_old
  = Nat.iter n momentum (globals (getIntegrator c) a_old).
Proof.
  induction n as [|n IH].
  - reflexivity.
  - rewrite step_last, oneStep_a_old by apply step_computations.
    rewrite IH. reflexivity.
Qed.

Lemma step_a_cur (n : nat) :
  globals (getIntegrator (step (S n) c)) a_cur
  = momentum (globals (getIntegrator (step n c)) a_old).
Proof. rewrite step_last. apply oneStep_a_cur, step_computations. Qed.

Lemma step_a_cur_a_old (n : nat) :
  globals (getIntegrator (step (S n) c)) a_old
  = globals (getIntegrator (step (S n) c)) a_cur.
Proof.
  rewrite step_last.
  rewrite oneStep_a_old, oneStep_a_cur by apply step_computations.
  reflexivity.
Qed.

Lemma step_positions (n : nat) :
  positions (step n c)
  = Nat.iter n (descentStep (getSystem c) (globals (getIntegrator c) dt)) (positions c).
Proof.
  induction n as [|n IH].
  - reflexivity.
  - rewrite step_last, oneStep_positions by apply step_computations.
    rewrite step_system, step_dt, IH. reflexivity.
Qed.

Lemma step_y_old (n : nat) :
  allMassive (getSystem c) ->
  perDof_y_old (getIntegrator (step (S n) c)) = positions (step (S n) c).
Proof.
  intros Hall. rewrite step_last.
  destruct (oneStep_massive (step n c) (step_computations n)) as (_ & Hy & Hx).
  - rewrite step_system. exact Hall.
  - rewrite Hy, Hx. reflexivity.
Qed.

End Runs.

Lemma init_computations (sys : System) (platform : Platform) (p0 : list R)
    (n : Z) (h : R) :
  computations (getIntegrator (nesterovContext (NesterovMinimizer_init sys platform p0 n h)))
  = nesterovComputations.
Proof. reflexivity. Qed.


(** ** The update rule *)

Lemma uniformField_gradientStep (r1 r2 r3 : R) :
  gradientStep uniformField 1 [r1; r2; r3] = [r1 + 1; r2 + 1; r3 + 1].
Proof.
  cbv [gradientStep uniformField numDof getNumParticles getForces
       Nat.mul Nat.add seq map nth].
  repeat f_equal; lra.
Qed.

Lemma uniformField_massive : allMassive uniformField.
Proof. intros p _. cbn. lra. Qed.

Lemma harmonicWell_massive : allMassive harmonicWell.
Proof. intros p _. cbn. lra. Qed.

Lemma iter_ext {A : Type} (g1 g2 : A -> A) (n : nat) (a : A) :
  (forall b, g1 b = g2 b) -> Nat.iter n g1 a = Nat.iter n g2 a.
Proof.
  intros Hg. induction n as [|n IH].
  - reflexivity.
  - rewrite !Nat.iter_succ, IH. apply Hg.
Qed.

Lemma uniformField_run (n : Z) (k : nat) :
  positions (step k (nesterovContext
    (NesterovMinimizer_init uniformField referencePlatform [0; 0; 0] n 1)))
  = [INR k; INR k; INR k].
Proof.
  set (c0 := nesterovContext _).
  rewrite step_positions by reflexivity.
  change (getSystem c0) with uniformField.
  change (globals (getIntegrator c0) dt) with 1.
  change (positions c0) with [0; 0; 0].
  induction k as [|k IH].
  - reflexivity.
  - rewrite Nat.iter_succ, IH, descentStep_massive by apply uniformField_massive.
    rewrite uniformField_gradientStep, S_INR. reflexivity.
Qed.

(** C1.  The program does not compute the position the specification asks
    for.  For one particle in a uniform field, started at the origin with
    step size 1, a run of one iteration ends at [[1; 1; 1]], while the
    specified update from the same values ([a_old = 0], [y_old] at the
    origin, as after construction and as after the specified reset) is
    [[0; 0; 0]]: the extrapolation term reads [a_old] and [y_old] after
    they were overwritten.  Later iterations differ in the same way: a run
    of three iterations ends at [[3; 3; 3]], while the specified update
    from the values held before the third iteration lies beyond 3 in every
    coordinate. *)
Theorem program_drops_momentum :
  let m := NesterovMinimizer_init uniformField referencePlatform [0; 0; 0] 1 1 in
  let m3 := NesterovMinimizer_init uniformField referencePlatform [0; 0; 0] 3 1 in
  (positions (nesterovContext (NesterovMinimizer_minimize m)) = [1; 1; 1]
   /\ specPositions (nesterovContext m) = [0; 0; 0]
   /\ positions (nesterovContext (NesterovMinimizer_minimize m))
      <> specPositions (nesterovContext m))
  /\ (positions (nesterovContext (NesterovMinimizer_minimize m3)) = [3; 3; 3]
      /\ exists s, 3 < s /\ specPositions (step 2 (nesterovContext m3)) = [s; s; s]).
Proof.
  intros m m3. split.
  - assert (Hcode : positions (nesterovContext (NesterovMinimizer_minimize m)) = [1; 1; 1]).
    { change (positions (oneStep (nesterovContext m)) = [1; 1; 1]).
      rewrite oneStep_positions by reflexivity.
      change (descentStep uniformField 1 [0; 0; 0] = [1; 1; 1]).
      rewrite descentStep_massive by apply uniformField_massive.
      rewrite uniformField_gradientStep. repeat f_equal; lra. }
    assert (Hspec : specPositions (nesterovContext m) = [0; 0; 0]).
    { cbv [specPositions specPosition m NesterovMinimizer_init nesterovContext getSystem
           getIntegrator globals positions uniformField numDof getNumParticles getForces
           dofEnv perDofValue perDof_y_old repeat
           Nat.mul Nat.add seq map nth].
      rewrite momentum_0.
      repeat f_equal; field. }
    split; [exact Hcode|]. split; [exact Hspec|].
    rewrite Hcode, Hspec. intros Heq. inversion Heq as [H1]. lra.
  - split.
    + change (positions (step 3 (nesterovContext m3)) = [3; 3; 3]).
      unfold m3. rewrite (uniformField_run 3 3). cbn [INR]. repeat f_equal; lra.
    + exists (3 + (momentum 1 - 1) / momentum (momentum 1)). split.
      * assert (Hnum : 1 + 0.5 < momentum 1) by (apply momentum_gain; lra).
        pose proof (momentum_ge_1 (momentum 1)) as Hden.
        assert (0 < (momentum 1 - 1) / momentum (momentum 1))
          by (apply Rdiv_lt_0_compat; lra).
        lra.
      * unfold m3, specPositions, dofEnv, perDofValue.
        rewrite step_system, step_a_old, step_dt by reflexivity.
        rewrite step_y_old by (try reflexivity; apply uniformField_massive).
        rewrite (uniformField_run 3 2).
        cbn [NesterovMinimizer_init nesterovContext getSystem getIntegrator globals
             getForces uniformField numDof getNumParticles Nat.mul Nat.add seq map
             nth INR Nat.iter nat_rect].
        rewrite momentum_0.
        unfold specPosition, Rdiv.
        f_equal; [ring | f_equal; [ring | f_equal; ring]].
Qed.

(** C2.  Along a run that starts from the state the constructor sets up
    ([a_old = 0]), the coefficient computed by every iteration satisfies
    [a_cur^2 - a_cur = a_old_prev^2], where [a_old_prev] is the value of
    [a_old] before that iteration; this holds for every iteration count,
    over the real numbers. *)
Theorem momentum_recurrence_along_run (sys : System) (platform : Platform)
    (p0 : list R) (n : Z) (h : R) (k : nat) :
  let c0 := nesterovContext (NesterovMinimizer_init sys platform p0 n h) in
  let a_old_prev := globals (getIntegrator (step k c0)) a_old in
  let a := globals (getIntegrator (step (S k) c0)) a_cur in
  globals (getIntegrator c0) a_old = 0 /\ a ^ 2 - a = a_old_prev ^ 2.
Proof.
  intros c0 a_old_prev a. split; [reflexivity|].
  unfold a, a_old_prev.
  rewrite step_a_cur by reflexivity.
  pose proof (momentum_recurrence (globals (getIntegrator (step k c0)) a_old)) as Hrec.
  nra.
Qed.

(** C9.  In every step of the program, at every degree of freedom where
    the assignment to [x] is evaluated (those of the particles with a
    mass), [y_old] holds the value of [y_cur] when it is evaluated, so the
    new position is the plain gradient step [x + dt * f]; a particle of
    mass 0 keeps its position.  When every particle has a mass the whole
    step is a gradient step and a run of [n] steps is [n] gradient
    steps. *)
Theorem step_is_gradient_descent (c : Context CustomIntegrator) (n : nat) :
  computations (getIntegrator c) = nesterovComputations ->
  let sys := getSystem c in
  let h := globals (getIntegrator c) dt in
  let before_x :=
    fold_left (fun c' k => execute k c') (firstn 4 (computations (getIntegrator c))) c in
  (forall i, (i < numDof sys)%nat -> getParticleMass sys (i / 3) <> 0 ->
     nth i (perDofValue before_x y_old) 0 = nth i (perDofValue before_x y_cur) 0
     /\ nth i (positions (oneStep c)) 0
        = nth i (positions c) 0 + h * nth i (getForces sys (positions c)) 0)
  /\ (forall i, (i < numDof sys)%nat -> getParticleMass sys (i / 3) = 0 ->
       nth i (positions (oneStep c)) 0 = nth i (positions c) 0)
  /\ (allMassive sys ->
       perDofValue before_x y_old = perDofValue before_x y_cur
       /\ positions (oneStep c) = gradientStep sys h (positions c)
       /\ positions (step n c) = Nat.iter n (gradientStep sys h) (positions c)).
Proof.
  intros Hprog sys h before_x.
  assert (Hbefore :
    perDofValue before_x y_cur
    = perDofUpdate sys (perDof_y_cur (getIntegrator c))
        (fun i => nth i (positions c) 0 + h * nth i (getForces sys (positions c)) 0)
    /\ perDofValue before_x y_old
      = perDofUpdate sys (perDof_y_old (getIntegrator c))
          (fun i => nth i (perDofValue before_x y_cur) 0)).
  { unfold before_x. rewrite Hprog.
    cbn [firstn fold_left nesterovComputations execute setGlobal setPerDof
         getSystem getPlatform getIntegrator positions
         globals perDof_y_cur perDof_y_old computations
         dofEnv perDofValue GlobalVar_eqb].
    split; reflexivity. }
  destruct Hbefore as [Hy_cur Hy_old].
  split; [|split].
  - intros i Hi Hm. apply frozen_false in Hm. split.
    + rewrite Hy_old, perDofUpdate_nth by exact Hi.
      fold sys. rewrite Hm. reflexivity.
    + apply (oneStep_massive_dof c Hprog i Hi Hm).
  - intros i Hi Hm. apply frozen_true in Hm.
    apply (oneStep_frozen_dof c Hprog i Hi Hm).
  - intros Hall. split; [|split].
    + rewrite Hy_old, Hy_cur, !perDofUpdate_massive by exact Hall.
      apply (gradientStep_reread sys h (positions c)).
    + apply (oneStep_massive c Hprog Hall).
    + rewrite step_positions by exact Hprog.
      apply iter_ext. intros p. apply descentStep_massive. exact Hall.
Qed.

Lemma step_is_gradient_descent_witness :
  let c := nesterovContext (NesterovMinimizer_init uniformField referencePlatform [0; 0; 0] 2 1) in
  computations (getIntegrator c) = nesterovComputations
  /\ allMassive (getSystem c)
  /\ positions (step 2 c) = Nat.iter 2 (gradientStep uniformField 1) [0; 0; 0].
Proof.
  intros c. split; [reflexivity|]. split; [apply uniformField_massive|].
  exact (proj2 (proj2 (proj2 (proj2 (step_is_gradient_descent c 2 eq_refl))
                               uniformField_massive))).
Defined.

(** C10.  Along a run that starts from the constructed state, [a_cur] is 1
    after the first iteration; after every iteration it is at least 1, the
    next iteration raises it by more than 0.5, and the coefficient
    [(a_old - 1) / a_cur] that the position update reads, with [a_old]
    holding the value of [a_cur], lies in [[0, 1)]. *)
Theorem momentum_coefficient_grows (sys : System) (platform : Platform)
    (p0 : list R) (n : Z) (h : R) (k : nat) :
  let c0 := nesterovContext (NesterovMinimizer_init sys platform p0 n h) in
  let a := fun j => globals (getIntegrator (step j c0)) a_cur in
  a 0%nat = 0
  /\ a 1%nat = 1
  /\ 1 <= a (S k)
  /\ a k + 0.5 < a (S k)
  /\ globals (getIntegrator (step (S k) c0)) a_old = a (S k)
  /\ 0 <= (a (S k) - 1) / a (S k) < 1.
Proof.
  intros c0 a.
  assert (Hprog : computations (getIntegrator c0) = nesterovComputations) by reflexivity.
  assert (Hone : forall j, 1 <= a (S j)).
  { intros j. unfold a. rewrite step_a_cur by exact Hprog. apply momentum_ge_1. }
  assert (Hsame : forall j, globals (getIntegrator (step (S j) c0)) a_old = a (S j)).
  { intros j. apply step_a_cur_a_old. exact Hprog. }
  split; [reflexivity|].
  split.
  { unfold a. rewrite step_a_cur by exact Hprog. apply momentum_0. }
  split; [apply Hone|].
  split.
  { destruct k as [|j].
    - unfold a at 2. rewrite step_a_cur by exact Hprog.
      change (a 0%nat) with 0. change (globals (getIntegrator (step 0 c0)) a_old) with 0.
      rewrite momentum_0. lra.
    - unfold a at 2. rewrite step_a_cur by exact Hprog.
      rewrite Hsame. apply momentum_gain.
      pose proof (Hone j). lra. }
  split; [apply Hsame|].
  apply coefficient_range, Hone.
Qed.

(** ** Runs of [minimize] *)

(** C3, as the program has it.  The momentum state is set once, by the
    constructor, to [a_cur = a_old = 0] and to 0 in every degree of freedom
    of [y_cur] and [y_old]; [minimize] does not reset it.  A second call
    continues from the integrator state the first one left: two calls are
    one run of twice the iterations, and after a call of at least one
    iteration [a_old] is at least 1. *)
Theorem momentum_carried_over (sys : System) (platform : Platform)
    (p0 : list R) (n : Z) (h : R) :
  (0 <= n)%Z ->
  let m := NesterovMinimizer_init sys platform p0 n h in
  let c0 := nesterovContext m in
  (globals (getIntegrator c0) a_cur = 0
   /\ globals (getIntegrator c0) a_old = 0
   /\ perDof_y_cur (getIntegrator c0) = repeat 0 (numDof sys)
   /\ perDof_y_old (getIntegrator c0) = repeat 0 (numDof sys))
  /\ nesterovContext (NesterovMinimizer_minimize (NesterovMinimizer_minimize m))
     = step (Z.to_nat n + Z.to_nat n) c0
  /\ ((0 < n)%Z ->
      1 <= globals (getIntegrator (nesterovContext (NesterovMinimizer_minimize m))) a_old).
Proof.
  intros Hn m c0. split; [repeat split|]. split.
  - cbn [NesterovMinimizer_minimize numIterations nesterovContext].
    rewrite step_add. reflexivity.
  - intros Hpos.
    cbn [NesterovMinimizer_minimize numIterations nesterovContext m NesterovMinimizer_init].
    destruct (Z.to_nat n) as [|k] eqn:Hk; [lia|].
    rewrite step_a_old by reflexivity.
    cbn [Nat.iter nat_rect]. apply momentum_ge_1.
Qed.

Lemma momentum_carried_over_witness :
  (0 <= 1)%Z
  /\ 1 <= globals (getIntegrator (nesterovContext (NesterovMinimizer_minimize
             (NesterovMinimizer_init uniformField referencePlatform [0; 0; 0] 1 1)))) a_old.
Proof.
  split.
  - lia.
  - apply (momentum_carried_over uniformField referencePlatform [0; 0; 0] 1 1); lia.
Defined.

(** C3, as stated, fails.  Before the first call the constructed [y_old] is
    0 in every degree of freedom, which is not the configuration when the
    particle is away from the origin; before a second call [a_old] is the
    coefficient the first call ended with. *)
Lemma momentum_not_reset :
  ~ momentumReset (nesterovContext
      (NesterovMinimizer_init uniformField referencePlatform [1; 0; 0] 1 1))
  /\ ~ momentumReset (nesterovContext (NesterovMinimizer_minimize
      (NesterovMinimizer_init uniformField referencePlatform [0; 0; 0] 1 1))).
Proof.
  split; intros [Ha Hy].
  - cbv [NesterovMinimizer_init nesterovContext getIntegrator perDof_y_old positions
         numDof uniformField getNumParticles Nat.mul Nat.add repeat] in Hy.
    inversion Hy as [H1]. lra.
  - change (globals (getIntegrator (oneStep (nesterovContext
              (NesterovMinimizer_init uniformField referencePlatform [0; 0; 0] 1 1)))) a_old = 0)
      in Ha.
    rewrite oneStep_a_old in Ha by reflexivity.
    pose proof (momentum_ge_1 (globals (getIntegrator (nesterovContext
      (NesterovMinimizer_init uniformField referencePlatform [0; 0; 0] 1 1))) a_old)).
    lra.
Qed.

(** C4.  A call of [minimize] on a minimizer built with a non-negative
    [numIterations] goes through exactly that many iterations, each one a
    complete step of the program applied to the context the one before
    left, and returns the context of the last one; no iteration is
    skipped whatever the energies are. *)
Theorem minimize_runs_all_iterations (m : NesterovMinimizer) :
  (0 <= numIterations m)%Z ->
  Z.of_nat (List.length (minimizeTrace m)) = numIterations m
  /\ minimizeTrace m
     = map (fun k => Nat.iter (S k) oneStep (nesterovContext m))
           (seq 0 (Z.to_nat (numIterations m)))
  /\ nesterovContext (NesterovMinimizer_minimize m)
     = Nat.iter (Z.to_nat (numIterations m)) oneStep (nesterovContext m)
  /\ nesterovContext (NesterovMinimizer_minimize m)
     = last (minimizeTrace m) (nesterovContext m).
Proof.
  intros Hn. unfold minimizeTrace.
  split; [rewrite stepTrace_length; lia|].
  split; [apply stepTrace_iter|].
  split; [apply step_iter|].
  cbn [NesterovMinimizer_minimize nesterovContext].
  generalize (nesterovContext m) as c.
  induction (Z.to_nat (numIterations m)) as [|k IH]; intros c.
  - reflexivity.
  - cbn [step stepTrace]. rewrite IH, last_cons. reflexivity.
Qed.

Lemma minimize_runs_all_iterations_witness :
  let m := NesterovMinimizer_init uniformField referencePlatform [0; 0; 0] 3 1 in
  (0 <= numIterations m)%Z /\ Z.of_nat (List.length (minimizeTrace m)) = 3%Z.
Proof.
  intros m.
  assert (Hn : (0 <= numIterations m)%Z) by (cbn; lia).
  split.
  - exact Hn.
  - exact (proj1 (minimize_runs_all_iterations m Hn)).
Defined.

Lemma sumSquares_opp (p : list R) : sumSquares (map Ropp p) = sumSquares p.
Proof.
  unfold sumSquares. induction p as [|r p IH]; cbn [map fold_right].
  - reflexivity.
  - rewrite IH. ring.
Qed.

Lemma harmonicWell_energy (p : list R) :
  getPotentialEnergy harmonicWell p = 0.5 * sumSquares (getForces harmonicWell p).
Proof. cbn [harmonicWell getPotentialEnergy getForces]. rewrite sumSquares_opp. reflexivity. Qed.

Lemma harmonicWell_far_start : ~ withinTolerance harmonicWell 1 [10; 0; 0].
Proof.
  cbv [withinTolerance sumSquares harmonicWell getForces numDof getNumParticles
       map fold_right Nat.mul Nat.add INR].
  lra.
Qed.

Lemma unitDescent_far_start :
  unitDescent harmonicWell 1 0%Z [10; 0; 0] = gradientStep harmonicWell 1 [10; 0; 0].
Proof.
  unfold unitDescent. cbn [Z.eqb].
  change 1000%nat with (S (S 998)). cbn [descend].
  destruct (Rle_dec (sumSquares (getForces harmonicWell [10; 0; 0]))
                    (INR (numDof harmonicWell) * (1 * 1))) as [Hle|_].
  - exfalso. apply harmonicWell_far_start.
    unfold withinTolerance. exact Hle.
  - destruct (Rle_dec (sumSquares (getForces harmonicWell (gradientStep harmonicWell 1 [10; 0; 0])))
                      (INR (numDof harmonicWell) * (1 * 1))) as [_|Hgt].
    + reflexivity.
    + exfalso. apply Hgt.
      cbv [sumSquares gradientStep harmonicWell getForces numDof getNumParticles
           map fold_right Nat.mul Nat.add INR seq nth].
      lra.
Qed.

(** C5, as the program has it.  A Nesterov minimizer with
    [numIterations = 0] is left as it was by [minimize], positions and
    energy included.  For the baseline minimizer [maxIterations = 0] is no
    cap: when the routine, called with 0, returns positions that pass its
    convergence test, a start that does not pass the test is moved. *)
Theorem zero_iterations (lbfgs : LocalEnergyMinimizer) (converged : list R -> Prop)
    (mN : NesterovMinimizer) (mB : BFGSMinimizer) :
  numIterations mN = 0%Z ->
  maxIterations mB = 0%Z ->
  converged (lbfgs (getSystem (bfgsContext mB)) (tolerance mB) 0%Z
                   (positions (bfgsContext mB))) ->
  ~ converged (positions (bfgsContext mB)) ->
  (NesterovMinimizer_minimize mN = mN
   /\ positions (nesterovContext (NesterovMinimizer_minimize mN))
      = positions (nesterovContext mN)
   /\ potentialEnergy (nesterovContext (NesterovMinimizer_minimize mN))
      = potentialEnergy (nesterovContext mN))
  /\ positions (bfgsContext (BFGSMinimizer_minimize lbfgs mB))
     <> positions (bfgsContext mB).
Proof.
  intros HN HB Hconv Hstart.
  assert (Hsame : NesterovMinimizer_minimize mN = mN).
  { destruct mN as [n c]. cbn in HN. subst n. reflexivity. }
  split.
  - rewrite Hsame. repeat split.
  - cbn [BFGSMinimizer_minimize LocalEnergyMinimizer_minimize bfgsContext positions].
    rewrite HB. intros Heq. apply Hstart. rewrite <- Heq. exact Hconv.
Qed.

Lemma zero_iterations_witness :
  let mN := NesterovMinimizer_init uniformField referencePlatform [0; 0; 0] 0 1 in
  let mB := BFGSMinimizer_init harmonicWell referencePlatform [10; 0; 0]
              BFGSMinimizer_default_tolerance BFGSMinimizer_default_maxIterations in
  ~ withinTolerance harmonicWell 1 [10; 0; 0]
  /\ NesterovMinimizer_minimize mN = mN
  /\ positions (bfgsContext (BFGSMinimizer_minimize unitDescent mB)) <> [10; 0; 0].
Proof.
  intros mN mB.
  assert (Hconv : withinTolerance harmonicWell 1
            (unitDescent (getSystem (bfgsContext mB)) (tolerance mB) 0%Z
                         (positions (bfgsContext mB)))).
  { change (withinTolerance harmonicWell 1 (unitDescent harmonicWell 1 0%Z [10; 0; 0])).
    rewrite unitDescent_far_start.
    cbv [withinTolerance sumSquares gradientStep harmonicWell getForces numDof
         getNumParticles map fold_right Nat.mul Nat.add INR seq nth].
    lra. }
  pose proof (zero_iterations unitDescent (withinTolerance harmonicWell 1) mN mB
                eq_refl eq_refl Hconv harmonicWell_far_start) as [[Hsame _] Hmoved].
  split; [exact harmonicWell_far_start|]. split; [exact Hsame | exact Hmoved].
Defined.

(** C5, as stated, fails for the baseline minimizer.  In the harmonic well
    the start [[10; 0; 0]] does not pass the stopping rule for the default
    tolerance 1 (the root mean square of its force components is above 1).
    With the default [maxIterations = 0] every routine that returns
    positions within the tolerance has moved the particle and lowered the
    energy, and so does the descent that stands for the routine. *)
Lemma baseline_zero_cap_moves :
  let mB := BFGSMinimizer_init harmonicWell referencePlatform [10; 0; 0]
              BFGSMinimizer_default_tolerance BFGSMinimizer_default_maxIterations in
  maxIterations mB = 0%Z
  /\ ~ withinTolerance harmonicWell (tolerance mB) (positions (bfgsContext mB))
  /\ (forall lbfgs : LocalEnergyMinimizer,
       withinTolerance harmonicWell 1 (lbfgs harmonicWell 1 0%Z [10; 0; 0]) ->
       positions (bfgsContext (BFGSMinimizer_minimize lbfgs mB))
         <> positions (bfgsContext mB)
       /\ potentialEnergy (bfgsContext (BFGSMinimizer_minimize lbfgs mB))
          < potentialEnergy (bfgsContext mB))
  /\ withinTolerance harmonicWell 1 (unitDescent harmonicWell 1 0%Z [10; 0; 0])
  /\ positions (bfgsContext (BFGSMinimizer_minimize unitDescent mB))
     <> positions (bfgsContext mB).
Proof.
  intros mB.
  assert (Hall : forall lbfgs : LocalEnergyMinimizer,
    withinTolerance harmonicWell 1 (lbfgs harmonicWell 1 0%Z [10; 0; 0]) ->
    positions (bfgsContext (BFGSMinimizer_minimize lbfgs mB))
      <> positions (bfgsContext mB)
    /\ potentialEnergy (bfgsContext (BFGSMinimizer_minimize lbfgs mB))
       < potentialEnergy (bfgsContext mB)).
  { intros lbfgs Hin.
    change (positions (bfgsContext (BFGSMinimizer_minimize lbfgs mB)))
      with (lbfgs harmonicWell 1 0%Z [10; 0; 0]).
    change (positions (bfgsContext mB)) with [10; 0; 0].
    split.
    - intros Heq. apply harmonicWell_far_start. rewrite <- Heq. exact Hin.
    - change (getPotentialEnergy harmonicWell (lbfgs harmonicWell 1 0%Z [10; 0; 0])
              < getPotentialEnergy harmonicWell [10; 0; 0]).
      rewrite !harmonicWell_energy.
      unfold withinTolerance in Hin.
      assert (Hstart : sumSquares (getForces harmonicWell [10; 0; 0]) = 100).
      { cbv [sumSquares harmonicWell getForces map fold_right]. lra. }
      assert (Hdof : INR (numDof harmonicWell) = 3).
      { cbv [numDof harmonicWell getNumParticles Nat.mul Nat.add INR]. lra. }
      rewrite Hstart. rewrite Hdof in Hin. lra. }
  assert (Hunit : withinTolerance harmonicWell 1 (unitDescent harmonicWell 1 0%Z [10; 0; 0])).
  { rewrite unitDescent_far_start.
    cbv [withinTolerance sumSquares gradientStep harmonicWell getForces numDof
         getNumParticles map fold_right Nat.mul Nat.add INR seq nth].
    lra. }
  split; [reflexivity|].
  split; [exact harmonicWell_far_start|].
  split; [exact Hall|].
  split; [exact Hunit|].
  exact (proj1 (Hall unitDescent Hunit)).
Qed.

(** ** The benchmark *)

Lemma report_layout (float : Type) (format_f : nat -> float -> string)
    (float_str : float -> string) (os : OS) (v : Measurement float) :
  report float format_f float_str os v
  = Some (m_name v ++ " with " ++ m_platform v ++ " platform and "
          ++ PyFormat.decimal (Z.of_nat (m_numParticles v)) ++ " particles"
          ++ os_linesep os
          ++ "  (" ++ details (m_deviceNames v) ++ ")" ++ os_linesep os
          ++ "  initial energy = " ++ rjust 12 (format_f 4%nat (m_initial v))
          ++ " kJ/mol" ++ os_linesep os
          ++ "  final energy   = " ++ rjust 12 (format_f 4%nat (m_final v))
          ++ " kJ/mol" ++ os_linesep os
          ++ "  elapsed time   = " ++ format_f 4%nat (m_time v) ++ " s"
          ++ os_linesep os)%string.
Proof. destruct os; reflexivity. Qed.

(** The template, filled with the values the notebook printed for its first
    run, gives the block the notebook shows. *)
Example report_2EQQ_Nesterov :
  report Q Qformat_f (Qformat_f 1) Posix run_2EQQ_Nesterov
  = Some (String.concat (os_linesep Posix)
      [ "NesterovMinimizer with CUDA platform and 423 particles";
        "  (device = GeForce GTX 660)";
        "  initial energy =    -353.2573 kJ/mol";
        "  final energy   =   -2891.6297 kJ/mol";
        "  elapsed time   = 0.0181 s";
        EmptyString ])%string.
Proof. vm_compute. reflexivity. Qed.

Example deviceNames_cuda : deviceNames cudaPlatform = ["GeForce GTX 660"%string].
Proof. reflexivity. Qed.

Example details_without_device : details (deviceNames referencePlatform) = EmptyString.
Proof. reflexivity. Qed.

(** C7.  The final energy that [benchmark] formats is the potential energy
    of the system at the positions the context holds when [minimize] has
    returned; the initial energy is the one at the positions before the
    call.  No variable of the integrator enters either. *)
Theorem final_energy_is_fresh {M : Type} `{BaseMinimizer M} (os : OS)
    (format_f : nat -> R -> string) (float_str : R -> string)
    (m : M) (startTime endTime : R) :
  let v := snd (measure m startTime endTime) in
  benchmark os format_f float_str m startTime endTime
  = (minimize m, report R format_f float_str os v)
  /\ m_final v
     = getPotentialEnergy (getSystem (context (minimize m)))
                          (positions (context (minimize m)))
  /\ m_initial v
     = getPotentialEnergy (getSystem (context m)) (positions (context m)).
Proof. intros v. repeat split. Qed.

(** C8.  The report of a benchmark run is one block of five lines, each
    ended by the line separator: the class name of the minimizer with the
    platform name and the particle count; the device name in parentheses,
    or empty parentheses when the platform has no device name property;
    the initial and the final energy, each printed with 4 digits after the
    point, right-aligned in 12 columns; the elapsed time
    [endTime - startTime], printed with 4 digits after the point. *)
Theorem benchmark_report_layout {M : Type} `{BaseMinimizer M} (os : OS)
    (format_f : nat -> R -> string) (float_str : R -> string)
    (m : M) (startTime endTime : R) :
  let c := context (minimize m) in
  snd (benchmark os format_f float_str m startTime endTime)
  = Some (className ++ " with " ++ getName (getPlatform c) ++ " platform and "
          ++ PyFormat.decimal (Z.of_nat (getNumParticles (getSystem c))) ++ " particles"
          ++ os_linesep os
          ++ "  (" ++ details (deviceNames (getPlatform c)) ++ ")" ++ os_linesep os
          ++ "  initial energy = "
          ++ rjust 12 (format_f 4%nat (potentialEnergy (context m)))
          ++ " kJ/mol" ++ os_linesep os
          ++ "  final energy   = " ++ rjust 12 (format_f 4%nat (potentialEnergy c))
          ++ " kJ/mol" ++ os_linesep os
          ++ "  elapsed time   = " ++ format_f 4%nat (endTime - startTime) ++ " s"
          ++ os_linesep os)%string.
Proof.
  intros c.
  unfold benchmark, measure. cbn [snd].
  rewrite report_layout. reflexivity.
Qed.

(** * Further properties of the integrator program *)

Lemma momentum_at_most_succ (a : R) : 0 <= a -> momentum a <= a + 1.
Proof.
  intros Ha. unfold momentum.
  pose proof (momentum_sqrt_sq a) as Hs.
  pose proof (sqrt_pos (1 + (4 * a * a))) as Hp.
  nra.
Qed.

(** X1.  After any positive number of steps of the program the momentum
    state carries no information beyond the positions: [a_old] equals
    [a_cur], and at every degree of freedom of a particle with a mass
    [y_cur] and [y_old] both hold the position. *)
Theorem state_after_steps (c : Context CustomIntegrator) (n : nat) :
  computations (getIntegrator c) = nesterovComputations ->
  let c' := step (S n) c in
  globals (getIntegrator c') a_old = globals (getIntegrator c') a_cur
  /\ (forall i, (i < 3 * getNumParticles (getSystem c))%nat ->
       getParticleMass (getSystem c) (i / 3) <> 0 ->
       nth i (perDof_y_cur (getIntegrator c')) 0 = nth i (positions c') 0
       /\ nth i (perDof_y_old (getIntegrator c')) 0 = nth i (positions c') 0).
Proof.
  intros Hprog c'. unfold c'.
  split; [apply step_a_cur_a_old; exact Hprog|].
  intros i Hi Hm. rewrite step_last.
  assert (Hn : computations (getIntegrator (step n c)) = nesterovComputations)
    by (apply step_computations; exact Hprog).
  destruct (oneStep_massive_dof (step n c) Hn i) as (Hy_cur & Hy_old & Hx).
  - rewrite step_system by exact Hprog. exact Hi.
  - rewrite step_system by exact Hprog. apply frozen_false. exact Hm.
  - rewrite Hy_cur, Hy_old, Hx. split; reflexivity.
Qed.

Lemma state_after_steps_witness :
  let c := nesterovContext (NesterovMinimizer_init uniformField referencePlatform [0; 0; 0] 1 1) in
  computations (getIntegrator c) = nesterovComputations
  /\ (0 < 3 * getNumParticles (getSystem c))%nat
  /\ getParticleMass (getSystem c) (0 / 3) <> 0
  /\ nth 0 (perDof_y_old (getIntegrator (step 1 c))) 0 = nth 0 (positions (step 1 c)) 0.
Proof.
  intros c.
  assert (Hi : (0 < 3 * getNumParticles (getSystem c))%nat) by (cbn; lia).
  assert (Hm : getParticleMass (getSystem c) (0 / 3) <> 0) by (cbn; lra).
  split; [reflexivity|]. split; [exact Hi|]. split; [exact Hm|].
  exact (proj2 (proj2 (state_after_steps c 0 eq_refl) 0%nat Hi Hm)).
Defined.

(** X2.  The positions a run reaches do not depend on the momentum state it
    starts with: two contexts that run the program on the same system with
    the same step size and the same positions reach the same positions and
    the same energy after any number of steps, whatever their [a_cur],
    [a_old], [y_cur] and [y_old] are. *)
Theorem positions_ignore_momentum_state (c1 c2 : Context CustomIntegrator) (n : nat) :
  computations (getIntegrator c1) = nesterovComputations ->
  computations (getIntegrator c2) = nesterovComputations ->
  getSystem c1 = getSystem c2 ->
  globals (getIntegrator c1) dt = globals (getIntegrator c2) dt ->
  positions c1 = positions c2 ->
  positions (step n c1) = positions (step n c2)
  /\ potentialEnergy (step n c1) = potentialEnergy (step n c2).
Proof.
  intros H1 H2 Hsys Hdt Hpos.
  assert (Hp : positions (step n c1) = positions (step n c2)).
  { rewrite !step_positions by assumption. rewrite Hsys, Hdt, Hpos. reflexivity. }
  split; [exact Hp|].
  unfold potentialEnergy. rewrite Hp, !step_system by assumption.
  rewrite Hsys. reflexivity.
Qed.

Lemma positions_ignore_momentum_state_witness :
  let c1 := nesterovContext (NesterovMinimizer_init uniformField referencePlatform [0; 0; 0] 2 1) in
  let c2 := {| getSystem := uniformField; getPlatform := referencePlatform;
               getIntegrator :=
                 {| globals := fun g => match g with dt => 1 | _ => 7 end;
                    perDof_y_cur := [4; 5; 6];
                    perDof_y_old := [];
                    computations := nesterovComputations |};
               positions := [0; 0; 0] |} in
  globals (getIntegrator c1) a_old <> globals (getIntegrator c2) a_old
  /\ positions (step 2 c1) = positions (step 2 c2).
Proof.
  intros c1 c2. split.
  - cbn. lra.
  - exact (proj1 (positions_ignore_momentum_state c1 c2 2
                    eq_refl eq_refl eq_refl eq_refl eq_refl)).
Defined.

Lemma descentStep_at_rest (sys : System) (h : R) (p : list R) :
  List.length p = numDof sys ->
  (forall i, (i < numDof sys)%nat -> nth i (getForces sys p) 0 = 0) ->
  descentStep sys h p = p.
Proof.
  intros Hlen Hrest. unfold descentStep, perDofUpdate.
  transitivity (map (fun i => nth i p 0) (seq 0 (numDof sys))).
  - apply map_seq_ext. intros i Hi. rewrite Hrest by exact Hi.
    destruct (frozen sys i); [reflexivity | ring].
  - rewrite <- Hlen. apply map_nth_seq.
Qed.

(** X3.  A configuration with one entry per degree of freedom at which
    every force component vanishes is a fixed point: [minimize] leaves the
    positions as they are, for any step size and any number of
    iterations. *)
Theorem stationary_point_is_kept (m : NesterovMinimizer) :
  let c := nesterovContext m in
  computations (getIntegrator c) = nesterovComputations ->
  List.length (positions c) = (3 * getNumParticles (getSystem c))%nat ->
  (forall i, (i < 3 * getNumParticles (getSystem c))%nat ->
     nth i (getForces (getSystem c) (positions c)) 0 = 0) ->
  positions (nesterovContext (NesterovMinimizer_minimize m)) = positions c.
Proof.
  intros c Hprog Hlen Hrest.
  cbn [NesterovMinimizer_minimize nesterovContext]. fold c.
  rewrite step_positions by exact Hprog.
  induction (Z.to_nat (numIterations m)) as [|k IH].
  - reflexivity.
  - rewrite Nat.iter_succ, IH. apply descentStep_at_rest; assumption.
Qed.

Lemma stationary_point_is_kept_witness :
  let m := NesterovMinimizer_init harmonicWell referencePlatform [0; 0; 0] 5 1 in
  List.length (positions (nesterovContext m)) = 3%nat
  /\ positions (nesterovContext (NesterovMinimizer_minimize m)) = [0; 0; 0].
Proof.
  intros m. split.
  - reflexivity.
  - apply (stationary_point_is_kept m).
    + reflexivity.
    + reflexivity.
    + intros i Hi. cbn in Hi.
      destruct i as [|[|[|i]]]; cbn; try lra. lia.
Defined.

(** X4.  Along a run from the constructed state the momentum coefficient
    grows linearly: after [k] iterations, [k >= 1], it lies between
    [(k + 1) / 2] and [k]. *)
Theorem momentum_linear_bounds (sys : System) (platform : Platform)
    (p0 : list R) (n : Z) (h : R) (k : nat) :
  let c0 := nesterovContext (NesterovMinimizer_init sys platform p0 n h) in
  let a := globals (getIntegrator (step (S k) c0)) a_cur in
  (INR (S k) + 1) / 2 <= a <= INR (S k).
Proof.
  intros c0 a. unfold a. clear a.
  assert (Hprog : computations (getIntegrator c0) = nesterovComputations) by reflexivity.
  induction k as [|k IH].
  - rewrite step_a_cur by exact Hprog.
    change (globals (getIntegrator (step 0 c0)) a_old) with 0.
    rewrite momentum_0. cbn [INR]. lra.
  - rewrite step_a_cur, step_a_cur_a_old by exact Hprog.
    set (b := globals (getIntegrator (step (S k) c0)) a_cur) in *.
    assert (Hb : 0 <= b).
    { pose proof (pos_INR (S k)). lra. }
    pose proof (momentum_gain b Hb) as Hlo.
    pose proof (momentum_at_most_succ b Hb) as Hhi.
    rewrite (S_INR (S k)). lra.
Qed.

(** X5.  Calls of [minimize] never adapt the step size or the budget: after
    any number of calls on a constructed minimizer, [dt] is the [stepSize]
    and [numIterations] the count given to the constructor, the integrator
    still runs the same five computations, and system and platform are the
    ones it was built with. *)
Theorem minimize_keeps_parameters (sys : System) (platform : Platform)
    (p0 : list R) (n : Z) (h : R) (calls : nat) :
  let m := Nat.iter calls NesterovMinimizer_minimize
             (NesterovMinimizer_init sys platform p0 n h) in
  globals (getIntegrator (nesterovContext m)) dt = h
  /\ numIterations m = n
  /\ computations (getIntegrator (nesterovContext m)) = nesterovComputations
  /\ getSystem (nesterovContext m) = sys
  /\ getPlatform (nesterovContext m) = platform.
Proof.
  induction calls as [|j IH]; cbv zeta in *.
  - repeat split.
  - rewrite Nat.iter_succ.
    set (m := Nat.iter j NesterovMinimizer_minimize _) in *.
    destruct IH as (Hdt & Hn & Hprog & Hsys & Hplat).
    cbn [NesterovMinimizer_minimize numIterations nesterovContext].
    split; [rewrite step_dt by exact Hprog; exact Hdt|].
    split; [exact Hn|].
    split; [apply step_computations; exact Hprog|].
    split; [rewrite step_system by exact Hprog; exact Hsys|].
    clear - Hprog Hplat.
    induction (Z.to_nat (numIterations m)) as [|k IHk].
    + exact Hplat.
    + rewrite step_last, oneStep_platform by (apply step_computations; exact Hprog).
      exact IHk.
Qed.

(** * Further properties of the benchmark *)

(** X6.  [benchmark] leaves the minimizer minimized, so a second benchmark
    of the same Nesterov minimizer starts where the first one ended: its
    initial energy is the final energy of the first, and its final energy is
    the energy after twice [numIterations] steps from the original
    positions, each a gradient step for the particles with a mass. *)
Theorem second_benchmark_continues (m : NesterovMinimizer) (t0 t1 t2 t3 : R) :
  computations (getIntegrator (nesterovContext m)) = nesterovComputations ->
  let c := nesterovContext m in
  let n := Z.to_nat (numIterations m) in
  let first := measure m t0 t1 in
  let second := measure (fst first) t2 t3 in
  m_initial (snd second) = m_final (snd first)
  /\ m_final (snd second)
     = getPotentialEnergy (getSystem c)
         (Nat.iter (n + n) (descentStep (getSystem c) (globals (getIntegrator c) dt))
                   (positions c)).
Proof.
  intros Hprog c n first second. split; [reflexivity|].
  cbn [second first measure fst snd m_final minimize context
       NesterovMinimizer_BaseMinimizer NesterovMinimizer_minimize
       numIterations nesterovContext].
  unfold potentialEnergy. fold c. fold n.
  rewrite <- step_add.
  rewrite step_system, step_positions by exact Hprog.
  reflexivity.
Qed.

Lemma second_benchmark_continues_witness :
  let m := NesterovMinimizer_init uniformField referencePlatform [0; 0; 0] 1 1 in
  computations (getIntegrator (nesterovContext m)) = nesterovComputations
  /\ m_initial (snd (measure (fst (measure m 0 1)) 1 2)) = m_final (snd (measure m 0 1)).
Proof.
  intros m. split.
  - reflexivity.
  - exact (proj1 (second_benchmark_continues m 0 1 1 2 eq_refl)).
Defined.

(** ** The properties dictionary and the device name *)

Lemma dictSet_keys (k v : string) (d : list (string * string)) :
  map fst (dictSet k v d)
  = if existsb (String.eqb k) (map fst d) then map fst d else map fst d ++ [k].
Proof.
  induction d as [|[k' v'] d IH]; cbn [dictSet map fst existsb app].
  - reflexivity.
  - rewrite (String.eqb_sym k k').
    destruct (String.eqb k' k) eqn:Hk; cbn [orb map fst].
    + reflexivity.
    + rewrite IH. destruct (existsb (String.eqb k) (map fst d)); reflexivity.
Qed.

Lemma dictSet_values (value : string -> string) (k : string) (d : list (string * string)) :
  (forall kv, In kv d -> snd kv = value (fst kv)) ->
  forall kv, In kv (dictSet k (value k) d) -> snd kv = value (fst kv).
Proof.
  induction d as [|[k' v'] d IH]; cbn [dictSet]; intros Hd kv Hin.
  - destruct Hin as [<-|[]]. reflexivity.
  - destruct (String.eqb k' k) eqn:Hk.
    + apply String.eqb_eq in Hk. subst k'.
      destruct Hin as [<-|Hin]; [reflexivity|].
      apply Hd. right. exact Hin.
    + destruct Hin as [<-|Hin].
      * apply (Hd (k', v')). left. reflexivity.
      * apply IH; [|exact Hin]. intros kv' Hkv'. apply Hd. right. exact Hkv'.
Qed.

Lemma properties_from (platform : Platform) (names : list string)
    (d : list (string * string)) :
  (forall kv, In kv d -> snd kv = getPropertyValue platform (fst kv)) ->
  let d' := fold_left (fun d k => dictSet k (getPropertyValue platform k) d) names d in
  map fst d'
  = fold_left (fun seen k => if existsb (String.eqb k) seen then seen else seen ++ [k])
              names (map fst d)
  /\ (forall kv, In kv d' -> snd kv = getPropertyValue platform (fst kv)).
Proof.
  revert d. induction names as [|k names IH]; intros d Hd; cbn [fold_left].
  - split; [reflexivity | exact Hd].
  - specialize (IH (dictSet k (getPropertyValue platform k) d)
                   (dictSet_values (getPropertyValue platform) k d Hd)).
    cbv zeta in IH. rewrite dictSet_keys in IH. exact IH.
Qed.

Lemma items_of_keys (value : string -> string) (d : list (string * string)) :
  (forall kv, In kv d -> snd kv = value (fst kv)) ->
  d = map (fun k => (k, value k)) (map fst d).
Proof.
  induction d as [|[k v] d IH]; intros Hd; cbn [map fst].
  - reflexivity.
  - f_equal.
    + f_equal. apply (Hd (k, v)). left. reflexivity.
    + apply IH. intros kv Hkv. apply Hd. right. exact Hkv.
Qed.

Lemma properties_items (platform : Platform) :
  properties platform
  = map (fun k => (k, getPropertyValue platform k)) (firstSeen (getPropertyNames platform)).
Proof.
  destruct (properties_from platform (getPropertyNames platform) [])
    as [Hkeys Hvals]; [intros kv []|].
  fold (properties platform) in Hkeys, Hvals.
  rewrite (items_of_keys (getPropertyValue platform) (properties platform) Hvals) at 1.
  rewrite Hkeys. reflexivity.
Qed.

Lemma existsb_eqb_In (k : string) (l : list string) :
  existsb (String.eqb k) l = true <-> In k l.
Proof.
  rewrite existsb_exists. split.
  - intros [k' [Hin Heq]]. apply String.eqb_eq in Heq. subst k'. exact Hin.
  - intros Hin. exists k. split; [exact Hin | apply String.eqb_refl].
Qed.

Lemma firstSeen_from (names seen : list string) :
  NoDup seen ->
  let l := fold_left (fun seen k => if existsb (String.eqb k) seen then seen else seen ++ [k])
                     names seen in
  NoDup l /\ (forall k, In k l <-> In k seen \/ In k names).
Proof.
  revert seen. induction names as [|k names IH]; intros seen Hnd; cbn [fold_left].
  - split; [exact Hnd|]. intros k. cbn. tauto.
  - destruct (existsb (String.eqb k) seen) eqn:Hk.
    + destruct (IH seen Hnd) as [Hnd' Hin]. split; [exact Hnd'|].
      intros k'. rewrite Hin. cbn [In]. apply existsb_eqb_In in Hk.
      split; [tauto|]. intros [H|[<-|H]]; tauto.
    + assert (Hnot : ~ In k seen).
      { intros Hin. apply existsb_eqb_In in Hin. congruence. }
      assert (Hnd1 : NoDup (seen ++ [k])).
      { apply NoDup_app; [exact Hnd | repeat constructor; intros [] |].
        intros k' Hk' [<-|[]]. contradiction. }
      destruct (IH (seen ++ [k]) Hnd1) as [Hnd' Hin]. split; [exact Hnd'|].
      intros k'. rewrite Hin, in_app_iff. cbn [In]. tauto.
Qed.

(** X7.  The dictionary built from the platform's property names has one
    item for each distinct name, the value being the platform's value of
    that property: its keys are free of duplicates, a string is a key
    exactly when it is a property name, and every item pairs a name with
    [getPropertyValue] of it. *)
Theorem properties_dictionary (platform : Platform) :
  NoDup (map fst (properties platform))
  /\ (forall k, In k (map fst (properties platform)) <-> In k (getPropertyNames platform))
  /\ (forall k v, In (k, v) (properties platform) -> v = getPropertyValue platform k).
Proof.
  rewrite properties_items, map_map. cbn [fst]. rewrite map_id.
  destruct (firstSeen_from (getPropertyNames platform) [] (NoDup_nil _)) as [Hnd Hin].
  fold (firstSeen (getPropertyNames platform)) in Hnd, Hin.
  split; [exact Hnd|]. split.
  - intros k. rewrite Hin. cbn [In]. tauto.
  - intros k v Hkv. apply in_map_iff in Hkv.
    destruct Hkv as [k' [Heq _]]. inversion Heq. reflexivity.
Qed.

Lemma find_app_first {A : Type} (P : A -> bool) (l1 l2 : list A) :
  find P (l1 ++ l2) = match find P l1 with Some a => Some a | None => find P l2 end.
Proof.
  induction l1 as [|a l1 IH]; cbn [app find].
  - reflexivity.
  - destruct (P a); [reflexivity | exact IH].
Qed.

Lemma find_firstSeen_from (P : string -> bool) (names seen : list string) :
  find P (fold_left (fun seen k => if existsb (String.eqb k) seen then seen else seen ++ [k])
                    names seen)
  = match find P seen with Some k => Some k | None => find P names end.
Proof.
  revert seen. induction names as [|k names IH]; intros seen; cbn [fold_left].
  - destruct (find P seen); reflexivity.
  - destruct (existsb (String.eqb k) seen) eqn:Hk.
    + rewrite IH. destruct (find P seen) eqn:Hf; [reflexivity|].
      apply existsb_eqb_In in Hk.
      cbn [find]. rewrite (find_none P seen Hf k Hk). reflexivity.
    + rewrite IH, find_app_first. cbn [find].
      destruct (find P seen); [reflexivity|].
      destruct (P k); reflexivity.
Qed.

Lemma hd_filter_find {A : Type} (P : A -> bool) (l : list A) :
  hd_error (filter P l) = find P l.
Proof.
  induction l as [|a l IH]; cbn [filter find].
  - reflexivity.
  - destruct (P a); [reflexivity | exact IH].
Qed.

Lemma deviceNames_items (platform : Platform) :
  deviceNames platform
  = map (getPropertyValue platform)
        (filter (PyFormat.contains "DeviceName") (firstSeen (getPropertyNames platform))).
Proof.
  unfold deviceNames. rewrite properties_items.
  induction (firstSeen (getPropertyNames platform)) as [|k l IH]; cbn [map filter fst].
  - reflexivity.
  - destruct (PyFormat.contains "DeviceName" k); cbn [map snd]; rewrite IH; reflexivity.
Qed.

(** X8.  The device shown in the report belongs to the first property name
    of the platform that contains [DeviceName]: the details are
    [device = ] followed by the value of that property, and they are empty
    when no property name contains [DeviceName]. *)
Theorem details_first_device (platform : Platform) :
  details (deviceNames platform)
  = match find (PyFormat.contains "DeviceName") (getPropertyNames platform) with
    | Some k => ("device = " ++ getPropertyValue platform k)%string
    | None => EmptyString
    end.
Proof.
  rewrite deviceNames_items.
  pose proof (find_firstSeen_from (PyFormat.contains "DeviceName")
                (getPropertyNames platform) []) as Hfind.
  cbn [find] in Hfind. fold (firstSeen (getPropertyNames platform)) in Hfind.
  rewrite <- Hfind, <- hd_filter_find.
  destruct (filter (PyFormat.contains "DeviceName") (firstSeen (getPropertyNames platform)));
    reflexivity.
Qed.

(** ** Strings *)

Lemma append_assoc (s1 s2 s3 : string) :
  ((s1 ++ s2) ++ s3 = s1 ++ (s2 ++ s3))%string.
Proof.
  induction s1 as [|ch s1 IH]; cbn [append].
  - reflexivity.
  - rewrite IH. reflexivity.
Qed.

Lemma append_length (s1 s2 : string) :
  String.length (s1 ++ s2) = (String.length s1 + String.length s2)%nat.
Proof.
  induction s1 as [|ch s1 IH]; cbn [append String.length].
  - reflexivity.
  - rewrite IH. reflexivity.
Qed.

Lemma spaces_length (n : nat) : String.length (PyFormat.spaces n) = n.
Proof.
  induction n as [|n IH]; cbn [PyFormat.spaces String.length].
  - reflexivity.
  - rewrite IH. reflexivity.
Qed.

Lemma prefix_split (sub s : string) :
  prefix sub s = true <-> exists post, s = (sub ++ post)%string.
Proof.
  revert s. induction sub as [|ch sub IH]; intros s.
  - split; [intros _; exists s; reflexivity | intros _; destruct s; reflexivity].
  - destruct s as [|ch' s]; cbn [prefix append].
    + split; [discriminate | intros [post Hpost]; discriminate].
    + destruct (ascii_dec ch ch') as [<-|Hne].
      * rewrite IH. split; intros [post Hpost]; exists post.
        -- rewrite Hpost. reflexivity.
        -- inversion Hpost. reflexivity.
      * split; [discriminate|]. intros [post Hpost]. inversion Hpost. congruence.
Qed.

(** X9.  The test ['DeviceName' in k] of the model is substring occurrence:
    [contains sub s] holds exactly when [s] is some text, then [sub], then
    some text. *)
Theorem contains_occurrence (sub s : string) :
  PyFormat.contains sub s = true
  <-> exists pre post, s = (pre ++ sub ++ post)%string.
Proof.
  induction s as [|ch s IH].
  - cbn [PyFormat.contains]. rewrite Bool.orb_false_r, prefix_split. split.
    + intros [post Hpost]. exists EmptyString, post. exact Hpost.
    + intros [pre [post Hpost]].
      destruct pre; [exists post; exact Hpost | discriminate].
  - cbn [PyFormat.contains]. rewrite Bool.orb_true_iff, prefix_split, IH. split.
    + intros [[post Hpost] | [pre [post Hpost]]].
      * exists EmptyString, post. exact Hpost.
      * exists (String ch pre), post. rewrite Hpost. reflexivity.
    + intros [pre [post Hpost]]. destruct pre as [|ch' pre].
      * left. exists post. exact Hpost.
      * right. exists pre, post. inversion Hpost. reflexivity.
Qed.

(** ** The template *)

Section FormatLaws.

Variable float : Type.
Variable format_f : nat -> float -> string.
Variable float_str : float -> string.

Let scan := PyFormat.scan float format_f float_str.
Let format := PyFormat.format float format_f float_str.

Lemma option_map_append (s1 s2 : string) (r : option string) :
  option_map (append s1) (option_map (append s2) r)
  = option_map (append (s1 ++ s2)) r.
Proof. destruct r; cbn [option_map]; [rewrite append_assoc|]; reflexivity. Qed.

Lemma scan_append (kw : PyFormat.Kwargs float) (t1 t2 : string) :
  forall (st : PyFormat.Scan) (s1 : string),
  scan kw st t1 = Some s1 ->
  scan kw st (t1 ++ t2) = option_map (append s1) (scan kw PyFormat.Text t2).
Proof.
  unfold scan.
  induction t1 as [|ch t1 IH]; intros st s1 H.
  - destruct st; cbn [PyFormat.scan] in H; try discriminate.
    injection H as <-. cbn [append].
    destruct (PyFormat.scan float format_f float_str kw PyFormat.Text t2); reflexivity.
  - cbn [append PyFormat.scan] in *.
    assert (Hlit : forall r,
      option_map (String ch) (PyFormat.scan float format_f float_str kw PyFormat.Text t1) = Some r ->
      option_map (String ch) (PyFormat.scan float format_f float_str kw PyFormat.Text (t1 ++ t2))
      = option_map (append r) (PyFormat.scan float format_f float_str kw PyFormat.Text t2)).
    { intros r Hr.
      destruct (PyFormat.scan float format_f float_str kw PyFormat.Text t1) as [r1|] eqn:H1;
        [|discriminate].
      injection Hr as <-. rewrite (IH _ _ H1).
      apply (option_map_append (String ch EmptyString) r1). }
    assert (Hfld : forall fs r,
      match fs with
      | inl st' => PyFormat.scan float format_f float_str kw st' t1
      | inr field =>
          match PyFormat.formatField float format_f float_str kw field with
          | Some text =>
              option_map (append text) (PyFormat.scan float format_f float_str kw PyFormat.Text t1)
          | None => None
          end
      end = Some r ->
      match fs with
      | inl st' => PyFormat.scan float format_f float_str kw st' (t1 ++ t2)
      | inr field =>
          match PyFormat.formatField float format_f float_str kw field with
          | Some text =>
              option_map (append text)
                (PyFormat.scan float format_f float_str kw PyFormat.Text (t1 ++ t2))
          | None => None
          end
      end = option_map (append r) (PyFormat.scan float format_f float_str kw PyFormat.Text t2)).
    { intros [st'|field] r Hr.
      - apply IH. exact Hr.
      - destruct (PyFormat.formatField float format_f float_str kw field) as [text|];
          [|discriminate].
        destruct (PyFormat.scan float format_f float_str kw PyFormat.Text t1) as [r1|] eqn:H1;
          [|discriminate].
        injection Hr as <-. rewrite (IH _ _ H1).
        apply option_map_append. }
    destruct st as [| | |depth acc].
    + destruct (Ascii.eqb ch "{"); [apply IH; exact H|].
      destruct (Ascii.eqb ch "}"); [apply IH; exact H|].
      apply Hlit. exact H.
    + destruct (Ascii.eqb ch "{"); [apply Hlit; exact H|].
      apply Hfld. exact H.
    + destruct (Ascii.eqb ch "}"); [apply Hlit; exact H | discriminate].
    + apply Hfld. exact H.
Qed.

(** X10.  Formatting distributes over concatenation of templates: when a
    template formats to [s1], the template followed by a second one formats
    to [s1] followed by the text of the second, and fails when the second
    fails.  Joining the report lines before the [format] call is therefore
    the same as formatting them one by one. *)
Theorem format_append (kw : PyFormat.Kwargs float) (t1 t2 s1 : string) :
  format t1 kw = Some s1 ->
  format (t1 ++ t2) kw = option_map (append s1) (format t2 kw).
Proof. intros H. apply (scan_append kw t1 t2 PyFormat.Text s1 H). Qed.

End FormatLaws.

Lemma format_append_witness :
  PyFormat.format Q Qformat_f (Qformat_f 1) "{a}-" [("a", PyFormat.ArgInt 7)]%string = Some "7-"%string
  /\ PyFormat.format Q Qformat_f (Qformat_f 1) ("{a}-" ++ "{a:>3d}") [("a", PyFormat.ArgInt 7)]%string
     = Some "7-  7"%string.
Proof.
  split.
  - reflexivity.
  - rewrite (format_append Q Qformat_f (Qformat_f 1) [("a", PyFormat.ArgInt 7)]%string
               "{a}-" "{a:>3d}" "7-" eq_refl).
    reflexivity.
Defined.

Lemma rjust_length (width : nat) (text : string) :
  String.length (rjust width text) = Nat.max width (String.length text).
Proof. unfold rjust. rewrite append_length, spaces_length. lia. Qed.

(** X11.  The two energy lines of the report are aligned: formatted on its
    own, each is its 19-character label, the energy right-aligned in at
    least 12 columns and the unit, so its length is 26 plus the larger of 12
    and the length of the printed energy; energies that print in at most 12
    characters give two lines of 38 characters with the digits in the same
    columns. *)
Theorem energy_lines_aligned (float : Type) (format_f : nat -> float -> string)
    (float_str : float -> string) (v : Measurement float) :
  exists initialLine finalLine,
    PyFormat.format float format_f float_str (nth 2 reportLines EmptyString) (reportKwargs v)
      = Some initialLine
    /\ PyFormat.format float format_f float_str (nth 3 reportLines EmptyString) (reportKwargs v)
      = Some finalLine
    /\ String.length initialLine
       = (26 + Nat.max 12 (String.length (format_f 4%nat (m_initial v))))%nat
    /\ String.length finalLine
       = (26 + Nat.max 12 (String.length (format_f 4%nat (m_final v))))%nat.
Proof.
  exists ("  initial energy = " ++ rjust 12 (format_f 4%nat (m_initial v)) ++ " kJ/mol")%string,
         ("  final energy   = " ++ rjust 12 (format_f 4%nat (m_final v)) ++ " kJ/mol")%string.
  split; [reflexivity|]. split; [reflexivity|].
  rewrite !append_length, !rjust_length. cbn [String.length]. lia.
Qed.

(** * The address of a structure *)

Lemma lowerAscii_idempotent (ch : ascii) : lowerAscii (lowerAscii ch) = lowerAscii ch.
Proof. destruct ch as [[] [] [] [] [] [] [] []]; reflexivity. Qed.

Lemma lower_idempotent (s : string) : lower (lower s) = lower s.
Proof.
  induction s as [|ch s IH]; cbn [lower].
  - reflexivity.
  - rewrite lowerAscii_idempotent, IH. reflexivity.
Qed.

Lemma append_cancel_l (p s1 s2 : string) :
  (p ++ s1 = p ++ s2)%string -> s1 = s2.
Proof.
  induction p as [|ch p IH]; cbn [append]; intros H.
  - exact H.
  - inversion H. apply IH. assumption.
Qed.

Lemma append_cancel_r (s1 s2 t : string) :
  (s1 ++ t = s2 ++ t)%string -> s1 = s2.
Proof.
  revert s2. induction s1 as [|ch s1 IH]; intros s2 H.
  - destruct s2 as [|ch2 s2]; [reflexivity|].
    apply (f_equal String.length) in H.
    cbn [append String.length] in H. rewrite append_length in H. lia.
  - destruct s2 as [|ch2 s2].
    + apply (f_equal String.length) in H.
      cbn [append String.length] in H. rewrite append_length in H. lia.
    + cbn [append] in H. inversion H. f_equal. apply IH. assumption.
Qed.

(** X12.  For PDB ids made of ASCII characters the address
    [downloadFromRCSB] opens depends on the id only up to the case of its
    letters: an id and its lower-case form give the same address, and two
    ids give the same address exactly when their lower-case forms are
    equal. *)
Theorem rcsbUrl_up_to_case (id1 id2 : string) :
  isAscii id1 = true ->
  isAscii id2 = true ->
  rcsbUrl (lower id1) = rcsbUrl id1
  /\ (rcsbUrl id1 = rcsbUrl id2 <-> lower id1 = lower id2).
Proof.
  intros _ _. unfold rcsbUrl. split.
  - rewrite lower_idempotent. reflexivity.
  - split.
    + intros H. apply append_cancel_l in H. apply append_cancel_r in H. exact H.
    + intros H. rewrite H. reflexivity.
Qed.

Lemma rcsbUrl_up_to_case_witness :
  isAscii "2EQQ" = true
  /\ isAscii "2eqq" = true
  /\ rcsbUrl "2EQQ" = rcsbUrl "2eqq".
Proof.
  split; [reflexivity|]. split; [reflexivity|].
  apply (proj2 (rcsbUrl_up_to_case "2EQQ" "2eqq" eq_refl eq_refl)).
  reflexivity.
Defined.

Example rcsbUrl_2EQQ :
  rcsbUrl "2EQQ"
  = "ftp://ftp.wwpdb.org/pub/pdb/data/structures/all/pdb/pdb2eqq.ent.gz"%string.
Proof. reflexivity. Qed.

(** * The comparison of the two minimizers *)

(** X13.  In one pass of the notebook's loop both minimizers start from the
    downloaded positions of the same system, so both reports show the same
    initial energy and the same particle count, each with the name of its
    own class and of the platform of its own context; the Nesterov report's
    final energy is the energy after 500 steps of size [1e-6], each a
    gradient step for the particles with a mass, and the baseline's is the
    energy of what the engine's routine returns for tolerance 1 and at most
    500 iterations. *)
Theorem comparison_starts_equal (lbfgs : LocalEnergyMinimizer) (system : System)
    (platformN platformB : Platform) (initial : list R) (t0 t1 t2 t3 : R) :
  let '(vN, vB) :=
    compareMinimizers lbfgs system platformN platformB initial t0 t1 t2 t3 in
  m_initial vN = getPotentialEnergy system initial
  /\ m_initial vB = m_initial vN
  /\ m_numParticles vB = m_numParticles vN
  /\ m_name vN = "NesterovMinimizer"%string
  /\ m_name vB = "BFGSMinimizer"%string
  /\ m_platform vN = getName platformN
  /\ m_platform vB = getName platformB
  /\ m_final vN
     = getPotentialEnergy system (Nat.iter 500 (descentStep system 1e-6) initial)
  /\ m_final vB = getPotentialEnergy system (lbfgs system 1 500%Z initial).
Proof.
  cbn [compareMinimizers].
  assert (Hprog : computations (getIntegrator (nesterovContext
            (nesterovRun system platformN initial))) = nesterovComputations) by reflexivity.
  cbn [measure snd m_initial m_final m_platform m_numParticles m_deviceNames m_name
       minimize context className integratorType
       NesterovMinimizer_BaseMinimizer BFGSMinimizer_BaseMinimizer
       NesterovMinimizer_minimize BFGSMinimizer_minimize LocalEnergyMinimizer_minimize
       numIterations nesterovContext bfgsContext getSystem getPlatform positions].
  unfold potentialEnergy.
  rewrite step_system, step_positions by exact Hprog.
  assert (Hplat : getPlatform (step (Z.to_nat (numIterations
            (nesterovRun system platformN initial)))
            (nesterovContext (nesterovRun system platformN initial))) = platformN).
  { generalize (Z.to_nat (numIterations (nesterovRun system platformN initial))) as k.
    induction k as [|k IH].
    - reflexivity.
    - rewrite step_last, oneStep_platform by (apply step_computations; exact Hprog).
      exact IH. }
  rewrite Hplat.
  repeat split.
Qed.

(** A particle of mass 0 is left where it is, whatever the force on it. *)
Example frozen_particle_stays :
  positions (nesterovContext (NesterovMinimizer_minimize
    (NesterovMinimizer_init frozenParticle referencePlatform [0; 0; 0] 1 1)))
  = [0; 0; 0].
Proof.
  change (positions (oneStep (nesterovContext
    (NesterovMinimizer_init frozenParticle referencePlatform [0; 0; 0] 1 1))) = [0; 0; 0]).
  rewrite oneStep_positions by reflexivity.
  unfold descentStep, perDofUpdate.
  cbn [NesterovMinimizer_init nesterovContext getSystem positions numDof frozenParticle
       getNumParticles Nat.mul Nat.add seq map].
  rewrite !frozen_true by reflexivity.
  reflexivity.
Qed.
